(** * ebook-to-audiobook-converter: text pipeline and synthesis driver

    A shallow embedding of [src/extractors.py] and [src/main.py].

    Python [str] values are sequences of Unicode code points and are
    modelled as [list N]; Python [int] values are modelled as [Z];
    exceptions are values of type [exn] carried by [result]; printing,
    engine calls and file writes are recorded, in program order, in a
    trace of [event]s. *)

From Stdlib Require Import String Ascii DecimalString.
From Stdlib Require Import List NArith ZArith QArith Qround Bool Lia.
Import ListNotations.
Close Scope Q_scope.

(* ================================================================== *)
(** * Python strings *)
(* ================================================================== *)

Module PyStr.

Definition char := N.
Definition str := list char.

(** An ASCII literal as a Python string. *)
Definition lit (s : String.string) : str :=
  map Ascii.N_of_ascii (String.list_ascii_of_string s).

Definition nl : char := 10%N.
Definition space : char := 32%N.
Definition dot : char := 46%N.

(** Decimal rendering of a natural number, as [str(n)] does. *)
Definition dec (n : nat) : str := lit (DecimalString.NilZero.string_of_uint (Nat.to_uint n)).

(** [str.isspace] on one code point; the same table backs [\s] in [re]
    for [str] patterns and the default argument of [str.strip]. *)
Definition isspace (c : char) : bool :=
  ((9 <=? c) && (c <=? 13) || (28 <=? c) && (c <=? 32)
   || (c =? 133) || (c =? 160) || (c =? 5760)
   || (8192 <=? c) && (c <=? 8202)
   || (c =? 8232) || (c =? 8233) || (c =? 8239) || (c =? 8287)
   || (c =? 12288))%N.

(** Truth value of a string: non-empty. *)
Definition truthy (s : str) : bool :=
  match s with [] => false | _ :: _ => true end.

(** [s.replace(old, new)] for a one-character [old]. *)
Definition replace_char (old : char) (new : str) (s : str) : str :=
  flat_map (fun c => if (c =? old)%N then new else [c]) s.

(** [s.split(sep)] for a one-character separator: always at least one
    fragment, and no fragment contains the separator. *)
Fixpoint split (sep : char) (s : str) : list str :=
  match s with
  | [] => [[]]
  | c :: s' =>
      if (c =? sep)%N then [] :: split sep s'
      else match split sep s' with
           | [] => [[c]]
           | f :: fs => (c :: f) :: fs
           end
  end.

Fixpoint lstrip (s : str) : str :=
  match s with
  | [] => []
  | c :: s' => if isspace c then lstrip s' else s
  end.

Definition rstrip (s : str) : str := rev (lstrip (rev s)).

(** [s.strip()] *)
Definition strip (s : str) : str := rstrip (lstrip s).

(** [sep.join(parts)] *)
Fixpoint join (sep : str) (parts : list str) : str :=
  match parts with
  | [] => []
  | [p] => p
  | p :: ps => p ++ sep ++ join sep ps
  end.

(** [s[:n]] for [n >= 0] *)
Definition prefix (n : nat) (s : str) : str := firstn n s.

End PyStr.
Import PyStr.

(* ================================================================== *)
(** * main.py: the chunker *)
(* ================================================================== *)

Module Chunker.

(** The list comprehension of [split_text]:
    [[s.strip() + '.' for s in text.replace('\n', ' ').split('.') if s.strip()]] *)
Definition sentences (text : str) : list str :=
  map (fun s => strip s ++ [dot])
      (filter (fun s => truthy (strip s))
              (split dot (replace_char nl [space] text))).

(** One iteration of the [for sentence in sentences] loop; the state is
    the pair [(chunks, current_chunk)]. *)
Definition step (chunk_size : Z) (st : list str * str) (sentence : str)
  : list str * str :=
  let (chunks, current_chunk) := st in
  if (Z.of_nat (length current_chunk) + Z.of_nat (length sentence) >? chunk_size)%Z
     && truthy current_chunk
  then (chunks ++ [current_chunk], sentence)
  else if truthy current_chunk
       then (chunks, current_chunk ++ [space] ++ sentence)
       else (chunks, sentence).

Definition split_text (text : str) (chunk_size : Z) : list str :=
  let (chunks, current_chunk) :=
    fold_left (step chunk_size) (sentences text) ([], []) in
  if truthy current_chunk then chunks ++ [current_chunk] else chunks.

(** The loop of [split_text] as a recursive function on the remaining
    sentences; [split_text_pack] below relates it to the loop. *)
Fixpoint pack (chunk_size : Z) (current_chunk : str) (sents : list str)
  : list str :=
  match sents with
  | [] => if truthy current_chunk then [current_chunk] else []
  | sentence :: rest =>
      if (Z.of_nat (length current_chunk) + Z.of_nat (length sentence) >? chunk_size)%Z
         && truthy current_chunk
      then current_chunk :: pack chunk_size sentence rest
      else pack chunk_size
                (if truthy current_chunk
                 then current_chunk ++ [space] ++ sentence
                 else sentence) rest
  end.

End Chunker.
Import Chunker.

(* ================================================================== *)
(** * Exceptions *)
(* ================================================================== *)

Inductive exn : Type :=
| FileNotFoundError (msg : str)
| ValueError (msg : str)
| NotImplementedError (msg : str)
| Exception (msg : str).

(** [str(e)] *)
Definition str_of_exn (e : exn) : str :=
  match e with
  | FileNotFoundError m | ValueError m | NotImplementedError m | Exception m => m
  end.

Inductive result (A : Type) : Type :=
| Ok (a : A)
| Raise (e : exn).
Arguments Ok {A} a.
Arguments Raise {A} e.

Definition bind {A B : Type} (r : result A) (k : A -> result B) : result B :=
  match r with
  | Ok a => k a
  | Raise e => Raise e
  end.

Declare Scope py_scope.
Delimit Scope py_scope with py.
Notation "x <- r ;; k" := (bind r (fun x => k))
  (at level 61, r at next level, right associativity) : py_scope.

(** [for x in xs: acc.append(f(x))] where [f] may raise. *)
Fixpoint mapM {A B : Type} (f : A -> result B) (xs : list A) : result (list B) :=
  match xs with
  | [] => Ok []
  | x :: xs' =>
      (y <- f x ;; ys <- mapM f xs' ;; Ok (y :: ys))%py
  end.

(* ================================================================== *)
(** * The fragment of [re] that extractors.py uses *)
(* ================================================================== *)

Module Re.

(** A pattern is a sequence of character classes, each taken once, or
    repeated greedily ([*], [+]). *)
Inductive quant : Type := One | Star | Plus.
Definition atom : Type := ((char -> bool) * quant)%type.
Definition pattern : Type := list atom.

(** Greedy repetition with backtracking: take as many characters of the
    class as possible, and give them back one at a time while the rest of
    the pattern, [k], fails.  The result is the number of characters
    matched. *)
Fixpoint match_star (f : char -> bool) (k : str -> option nat) (s : str)
  : option nat :=
  match s with
  | [] => k []
  | c :: s' =>
      if f c
      then match match_star f k s' with
           | Some n => Some (S n)
           | None => k s
           end
      else k s
  end.

(** The match of pattern [p] at the start of [s], if there is one. *)
Fixpoint match_here (p : pattern) (s : str) : option nat :=
  match p with
  | [] => Some 0
  | (f, One) :: p' =>
      match s with
      | c :: s' => if f c then option_map S (match_here p' s') else None
      | [] => None
      end
  | (f, Star) :: p' => match_star f (match_here p') s
  | (f, Plus) :: p' =>
      match s with
      | c :: s' =>
          if f c then option_map S (match_star f (match_here p') s') else None
      | [] => None
      end
  end.

(** [re.sub]: scan left to right, replace each leftmost match by
    [repl matched_text] and resume after it.  [skip] counts the
    characters of [s] that still belong to the match just replaced.
    Every pattern of this program consumes at least one character; an
    empty match is not a match here. *)
Fixpoint sub_from (p : pattern) (repl : str -> str) (skip : nat) (s : str)
  : str :=
  match s with
  | [] => []
  | c :: s' =>
      match skip with
      | S k => sub_from p repl k s'
      | O =>
          match match_here p s with
          | Some (S n) => repl (firstn (S n) s) ++ sub_from p repl n s'
          | _ => c :: sub_from p repl 0 s'
          end
      end
  end.

Definition sub (p : pattern) (repl : str -> str) (s : str) : str :=
  sub_from p repl 0 s.

Definition just (a : char) : char -> bool := fun c => (c =? a)%N.

(** [[.!?]] *)
Definition sentence_end (c : char) : bool :=
  ((c =? 46) || (c =? 33) || (c =? 63))%N.

(** [[A-Za-z]] *)
Definition ascii_letter (c : char) : bool :=
  ((65 <=? c) && (c <=? 90) || (97 <=? c) && (c <=? 122))%N.

End Re.

(* ================================================================== *)
(** * extractors.py *)
(* ================================================================== *)

Module Extractors.

Inductive item_type : Type := ITEM_DOCUMENT | ITEM_OTHER.

Record Item : Type := {
  get_type : item_type;
  get_content : list Byte.byte
}.

(** What the program takes from the operating system, the Python
    runtime, ebooklib and BeautifulSoup. *)
Record Platform : Type := {
  (** [os.path.exists] *)
  os_path_exists : str -> bool;
  (** [os.path.splitext] *)
  os_path_splitext : str -> str * str;
  (** [str.lower] *)
  str_lower : str -> str;
  (** the characters [\d] matches in a [str] pattern *)
  re_digit : char -> bool;
  (** [epub.read_epub(path).get_items()] *)
  read_epub : str -> result (list Item);
  (** [bytes.decode('utf-8')] *)
  decode_utf8 : list Byte.byte -> result str;
  (** [BeautifulSoup(content, 'html.parser').get_text()] *)
  soup_get_text : str -> str
}.

(** The class hierarchy: [_extract] is the method subclasses implement. *)
Inductive Extractor : Type := BaseExtractor | EpubExtractor.

Definition is_document (t : item_type) : bool :=
  match t with ITEM_DOCUMENT => true | ITEM_OTHER => false end.

Definition _extract (P : Platform) (self : Extractor) (file_path : str)
  : result str :=
  match self with
  | BaseExtractor =>
      Raise (NotImplementedError (lit "Subclasses must implement this method"))
  | EpubExtractor =>
      (book <- read_epub P file_path ;;
       text <- mapM (fun item =>
                       content <- decode_utf8 P (get_content item) ;;
                       Ok (soup_get_text P content))
                    (filter (fun item => is_document (get_type item)) book) ;;
       Ok (join [nl] text))%py
  end.

(** [BaseExtractor.extract] *)
Definition extract (P : Platform) (self : Extractor) (file_path : str)
  : result str :=
  if negb (os_path_exists P file_path)
  then Raise (FileNotFoundError (lit "File not found: " ++ file_path))
  else _extract P self file_path.

Definition get_extractor (P : Platform) (file_path : str) : result Extractor :=
  let ext := str_lower P (snd (os_path_splitext P file_path)) in
  if list_eq_dec N.eq_dec ext (lit ".epub")
  then Ok EpubExtractor
  else Raise (ValueError (lit "Unsupported file format: " ++ ext
                          ++ lit ". Only EPUB files are supported.")).

(** U+FB01 and U+FB02, the ligatures [clean_text] replaces. *)
Definition lig_fi : char := 64257%N.
Definition lig_fl : char := 64258%N.

Definition clean_text (P : Platform) (text : str) : str :=
  (* Remove extra whitespace *)
  let text := Re.sub [(isspace, Re.Plus)] (fun _ => [space]) text in
  (* Remove page numbers and other artifacts *)
  let text :=
    Re.sub [(Re.just nl, Re.One); (isspace, Re.Star); (re_digit P, Re.Plus);
            (isspace, Re.Star); (Re.just nl, Re.One)]
           (fun _ => [nl]) text in
  (* Replace common ligatures *)
  let text :=
    replace_char lig_fl (lit "fl") (replace_char lig_fi (lit "fi") text) in
  (* Fix spacing after punctuation: the two groups are the two characters
     of the match *)
  let text :=
    Re.sub [(Re.sentence_end, Re.One); (Re.ascii_letter, Re.One)]
           (fun m => match m with
                     | [g1; g2] => [g1; space; g2]
                     | _ => m
                     end) text in
  strip text.

Definition extract_text (P : Platform) (file_path : str) : result str :=
  (extractor <- get_extractor P file_path ;;
   raw_text <- extract P extractor file_path ;;
   Ok (clean_text P raw_text))%py.

End Extractors.
Import Extractors.

(* ================================================================== *)
(** * main.py: the synthesis driver and the entry point *)
(* ================================================================== *)

Module Driver.

Section WithSample.

(** One audio sample ([numpy.float32]) and its zero. *)
Variable sample : Type.
Variable zero : sample.

Definition buffer : Type := list sample.

(** What iterating [pipeline(chunk, voice=voice, speed=1)] does: it
    yields [(graphemes, phonemes, audio)] triples and then either stops
    or raises. *)
Inductive Generator : Type :=
| Yields (items : list (str * str * buffer)) (raised : option exn).

(** The engine, as the driver sees it: the result of the call number
    [i] (counted from 0) on a chunk and a voice. *)
Definition Pipeline : Type := nat -> str -> str -> Generator.

Record Kokoro : Type := {
  (** the module-level flag [kokoro_available] *)
  kokoro_available : bool;
  (** [KPipeline(lang_code=...)] *)
  KPipeline : str -> result Pipeline;
  (** [soundfile.write(file, data, samplerate)] *)
  sf_write : str -> buffer -> Z -> result unit
}.

(** Observable actions, in program order. *)
Inductive event : Type :=
| Print (line : str)
| PrintTraceback
| Synthesize (i : nat) (chunk voice : str)
| SfWrite (output_file : str) (data : buffer) (samplerate : Z)
| Mkdir (path : str)
| MkdirParentOf (path : str)
| CreateVenv.

(** [pause_duration = 0.5]; the product with an [int] is exact in
    binary64 for sample rates of magnitude up to [2^53] and is modelled
    by the rational product. *)
Definition pause_duration : Q := 1 # 2.

(** [int(x)] for a float [x]: truncation toward zero. *)
Definition int_of_float (x : Q) : Z := Z.quot (Qnum x) (Zpos (Qden x)).

Definition pause_samples (sample_rate : Z) : Z :=
  int_of_float (pause_duration * inject_Z sample_rate).

(** [np.zeros(n, dtype=np.float32)] *)
Definition np_zeros (n : Z) : result buffer :=
  if (n <? 0)%Z
  then Raise (ValueError (lit "negative dimensions are not allowed"))
  else Ok (repeat zero (Z.to_nat n)).

(** [np.concatenate] *)
Definition np_concatenate (all_audio : list buffer) : buffer := concat all_audio.

Definition audio_of (item : str * str * buffer) : buffer := snd item.

(** The body of the inner [try] for one chunk: the new [all_audio], or
    the exception that reaches the [except] clause. *)
Definition synthesize_chunk (pipeline : Pipeline) (voice : str)
  (sample_rate : Z) (i : nat) (chunk : str) (all_audio : list buffer)
  : result (list buffer) :=
  match pipeline i chunk voice with
  | Yields items (Some e) => Raise e
  | Yields items None =>
      (silence <- np_zeros (pause_samples sample_rate) ;;
       Ok (all_audio ++ map audio_of items ++ [silence]))%py
  end.

Definition chunk_preview (chunk : str) : str :=
  if (100 <? length chunk)%nat
  then lit "Chunk text: " ++ prefix 100 chunk ++ lit "..."
  else lit "Chunk text: " ++ chunk.

(** The loop [for i, chunk in enumerate(tqdm(chunks))]; [None] is the
    [return False] of the [except] clause. *)
Fixpoint process_chunks (pipeline : Pipeline) (voice : str)
  (sample_rate : Z) (total : nat) (i : nat) (chunks : list str)
  (all_audio : list buffer) : list event * option (list buffer) :=
  match chunks with
  | [] => ([], Some all_audio)
  | chunk :: rest =>
      let started :=
        [Print (lit "Processing chunk " ++ dec (i + 1) ++ lit "/" ++ dec total);
         Print (chunk_preview chunk);
         Synthesize i chunk voice] in
      match synthesize_chunk pipeline voice sample_rate i chunk all_audio with
      | Ok all_audio' =>
          let (tr, r) :=
            process_chunks pipeline voice sample_rate total (S i) rest all_audio' in
          (started ++ tr, r)
      | Raise e =>
          (started ++
           [Print (lit "Error processing chunk " ++ dec (i + 1) ++ lit ": "
                   ++ str_of_exn e);
            Print (lit "Failed to convert text to speech. Exiting...")],
           None)
      end
  end.

(** [if max_chunks is not None and max_chunks > 0: chunks = chunks[:max_chunks]] *)
Definition limit_chunks (max_chunks : option Z) (chunks : list str)
  : list str :=
  match max_chunks with
  | Some m => if (m >? 0)%Z then firstn (Z.to_nat m) chunks else chunks
  | None => chunks
  end.

Definition limit_message (max_chunks : option Z) : list event :=
  match max_chunks with
  | Some m =>
      if (m >? 0)%Z
      then [Print (lit "Processing limited to first " ++ dec (Z.to_nat m)
                   ++ lit " chunks.")]
      else []
  | None => []
  end.

(** The outer [except Exception as e] clause. *)
Definition tts_error (e : exn) : list event :=
  [Print (lit "Error in TTS conversion: " ++ str_of_exn e); PrintTraceback].

Definition convert_to_speech (K : Kokoro) (text output_file voice : str)
  (chunk_size sample_rate : Z) (lang_code : str) (max_chunks : option Z)
  : list event * bool :=
  if negb (kokoro_available K)
  then ([Print (lit "ERROR: Kokoro TTS is not available.");
         Print (lit "Please make sure kokoro is installed and espeak-ng is available.");
         Print (lit "Run: pip install kokoro soundfile torch");
         Print (lit "And install espeak-ng for your platform.")],
        false)
  else
    let chunks := split_text text chunk_size in
    let tr_split :=
      [Print (lit "Text split into " ++ dec (length chunks)
              ++ lit " chunks for processing.")] in
    let tr_limit := limit_message max_chunks in
    let chunks := limit_chunks max_chunks chunks in
    let tr_init := [Print (lit "Initializing Kokoro TTS...")] in
    match KPipeline K lang_code with
    | Raise e => (tr_split ++ tr_limit ++ tr_init ++ tts_error e, false)
    | Ok pipeline =>
        let tr_conv :=
          [Print (lit "Converting " ++ dec (length chunks)
                  ++ lit " text chunks to speech...")] in
        let before := tr_split ++ tr_limit ++ tr_init ++ tr_conv in
        match process_chunks pipeline voice sample_rate (length chunks) 0
                             chunks [] with
        | (tr_loop, None) => (before ++ tr_loop, false)
        | (tr_loop, Some all_audio) =>
            match all_audio with
            | [] =>
                (before ++ tr_loop ++ [Print (lit "No audio was generated.")],
                 false)
            | _ :: _ =>
                let combined_audio := np_concatenate all_audio in
                let written := SfWrite output_file combined_audio sample_rate in
                match sf_write K output_file combined_audio sample_rate with
                | Ok _ =>
                    (before ++ tr_loop ++
                     [written; Print (lit "Audio saved to: " ++ output_file)],
                     true)
                | Raise e =>
                    (before ++ tr_loop ++ [written] ++ tts_error e, false)
                end
            end
        end
    end.

(** The parsed command line. *)
Record Args : Type := {
  input : str;
  output : str;
  voice : str;
  create_venv : bool;
  chunk_size : Z;
  sample_rate : Z;
  lang : str;
  max_chunks : option Z
}.

(** [None if args.max_chunks == 0 else args.max_chunks] *)
Definition unlimited_if_zero (m : option Z) : option Z :=
  match m with
  | Some 0%Z => None
  | _ => m
  end.

(** [main]: the trace and the exit status of the process. *)
Definition main (P : Platform) (K : Kokoro) (args : Args) : list event * Z :=
  let tr0 :=
    [Mkdir (lit "audio_output")]
    ++ (if create_venv args then [CreateVenv] else []) in
  if negb (kokoro_available K)
  then (tr0 ++
        [Print (lit "ERROR: Kokoro TTS is not available.");
         Print (lit "Please make sure kokoro is installed properly:");
         Print (lit "  1. Run: pip install kokoro soundfile torch");
         Print (lit "  2. Install espeak-ng for your platform")],
        1%Z)
  else if negb (os_path_exists P (input args))
  then (tr0 ++
        [Print (lit "Error: Input file '" ++ input args ++ lit "' not found.")],
        1%Z)
  else
    let file_ext := str_lower P (snd (os_path_splitext P (input args))) in
    if negb (if list_eq_dec N.eq_dec file_ext (lit ".epub") then true else false)
    then (tr0 ++
          [Print (lit "Error: Unsupported file format '" ++ file_ext
                  ++ lit "'. Only EPUB files are supported.")],
          1%Z)
    else
      let tr1 :=
        tr0 ++ [MkdirParentOf (output args);
                Print (lit "Extracting text from '" ++ input args ++ lit "'...")] in
      match extract_text P (input args) with
      | Raise e => (tr1 ++ [Print (lit "Error: " ++ str_of_exn e)], 1%Z)
      | Ok text =>
          let tr2 :=
            tr1 ++ [Print (lit "Extracted " ++ dec (length text)
                           ++ lit " characters of text.")] in
          let max_chunks := unlimited_if_zero (max_chunks args) in
          let (tr3, success) :=
            convert_to_speech K text (output args) (voice args)
                              (chunk_size args) (sample_rate args)
                              (lang args) max_chunks in
          if success
          then (tr2 ++ tr3 ++
                [Print (lit "Successfully converted '" ++ input args
                        ++ lit "' to '" ++ output args ++ lit "'")],
                0%Z)
          else (tr2 ++ tr3 ++
                [Print (lit "Error: Failed to convert ebook to audiobook.")],
                1%Z)
      end.

End WithSample.

Arguments Yields {sample} items raised.
Arguments Print {sample} line.
Arguments PrintTraceback {sample}.
Arguments Synthesize {sample} i chunk voice.
Arguments SfWrite {sample} output_file data samplerate.
Arguments Mkdir {sample} path.
Arguments MkdirParentOf {sample} path.
Arguments CreateVenv {sample}.
Arguments audio_of {sample} item.
Arguments np_zeros {sample} zero n.
Arguments np_concatenate {sample} all_audio.
Arguments synthesize_chunk {sample} zero pipeline voice sample_rate i chunk all_audio.
Arguments process_chunks {sample} zero pipeline voice sample_rate total i chunks all_audio.
Arguments limit_message {sample} max_chunks.
Arguments tts_error {sample} e.
Arguments convert_to_speech {sample} zero K text output_file voice chunk_size sample_rate lang_code max_chunks.
Arguments main {sample} zero P K args.
Arguments kokoro_available {sample} k.
Arguments KPipeline {sample} k lang_code.
Arguments sf_write {sample} k output_file data samplerate.

End Driver.
Import Driver.

(* ================================================================== *)
(** * Vocabulary of the properties *)
(* ================================================================== *)

Module Props.

(** The text of a sentence before its final period. *)
Definition body_ok (b : str) : Prop :=
  b <> [] /\ strip b = b /\ ~ In dot b /\ ~ In nl b.

Definition sentence_ok (s : str) : Prop :=
  exists b, s = b ++ [dot] /\ body_ok b.

(** What every chunk looks like: non-empty, ending in a period, on one
    line. *)
Definition chunk_ok (c : str) : Prop :=
  c <> [] /\ last c space = dot /\ ~ In nl c.

(** The comprehension of [sentences] applied to the fragments. *)
Definition of_fragments (frags : list str) : list str :=
  map (fun s => strip s ++ [dot]) (filter (fun s => truthy (strip s)) frags).

Definition head_space (s : str) : bool :=
  match s with
  | c :: _ => isspace c
  | [] => false
  end.

(** Two whitespace characters next to each other somewhere in [s]. *)
Fixpoint has_space_run (s : str) : bool :=
  match s with
  | c :: t => (isspace c && head_space t) || has_space_run t
  | [] => false
  end.

(** Length of the longest prefix of [s] in the class [f]. *)
Fixpoint span (f : char -> bool) (s : str) : nat :=
  match s with
  | c :: s' => if f c then S (span f s') else 0
  | [] => 0
  end.

(** The substitutions of [clean_text], one by one. *)

(** [re.sub(r'\s+', ' ', text)] *)
Definition collapse (s : str) : str :=
  Re.sub [(isspace, Re.Plus)] (fun _ => [space]) s.

(** The pattern of [re.sub(r'\n\s*\d+\s*\n', '\n', text)] *)
Definition page_number (digit : char -> bool) : Re.pattern :=
  [(Re.just nl, Re.One); (isspace, Re.Star); (digit, Re.Plus);
   (isspace, Re.Star); (Re.just nl, Re.One)].

(** [re.sub(r'([.!?])([A-Za-z])', r'\1 \2', text)] *)
Definition punctuation (s : str) : str :=
  Re.sub [(Re.sentence_end, Re.One); (Re.ascii_letter, Re.One)]
         (fun m => match m with
                   | [g1; g2] => [g1; space; g2]
                   | _ => m
                   end) s.

(** [round(x)]: the nearest integer, a tie going to the even one. *)
Definition round_half_even (x : Q) : Z :=
  let f := Qfloor x in
  match Qcompare (x - inject_Z f) (1 # 2) with
  | Lt => f
  | Gt => (f + 1)%Z
  | Eq => if Z.even f then f else (f + 1)%Z
  end.

Section WithSample.

Variable sample : Type.

(** The chunks handed to the engine, in order. *)
Fixpoint synthesized (tr : list (event sample)) : list str :=
  match tr with
  | Synthesize _ chunk _ :: tr' => chunk :: synthesized tr'
  | _ :: tr' => synthesized tr'
  | [] => []
  end.

(** The files written, in order. *)
Fixpoint written (tr : list (event sample)) : list (str * buffer sample * Z) :=
  match tr with
  | SfWrite f d r :: tr' => (f, d, r) :: written tr'
  | _ :: tr' => written tr'
  | [] => []
  end.

Definition items_of (g : Generator sample) : list (str * str * buffer sample) :=
  match g with Yields items _ => items end.

Definition raised_of (g : Generator sample) : option exn :=
  match g with Yields _ raised => raised end.

(** The speech buffers the engine yields for each chunk, the first
    chunk being call number [i]. *)
Fixpoint speech_segments (pipeline : Pipeline sample) (voice : str) (i : nat)
  (chunks : list str) : list (list (buffer sample)) :=
  match chunks with
  | [] => []
  | chunk :: rest =>
      map audio_of (items_of (pipeline i chunk voice))
      :: speech_segments pipeline voice (S i) rest
  end.

(** The engine raises on none of the chunks, the first being call
    number [i]. *)
Fixpoint engine_ok (pipeline : Pipeline sample) (voice : str) (i : nat)
  (chunks : list str) : Prop :=
  match chunks with
  | [] => True
  | chunk :: rest =>
      raised_of (pipeline i chunk voice) = None
      /\ engine_ok pipeline voice (S i) rest
  end.

(** Number of samples in a list of buffers. *)
Definition samples (bufs : list (buffer sample)) : Z :=
  Z.of_nat (length (concat bufs)).

(** Number of speech samples over all chunks. *)
Definition speech_samples (speech : list (list (buffer sample))) : Z :=
  fold_right Z.add 0%Z (map samples speech).

(** The stream the driver assembles: for each chunk its speech buffers,
    then the silence segment. *)
Definition stream (silence : buffer sample)
  (speech : list (list (buffer sample))) : buffer sample :=
  concat (map (fun segs => concat segs ++ silence) speech).

(** The line the driver prints when chunk number [n] (counted from 1,
    as in its progress lines) fails with [e]. *)
Definition chunk_error (n : nat) (e : exn) : event sample :=
  Print (lit "Error processing chunk " ++ dec n ++ lit ": " ++ str_of_exn e).

(** The silence segment the driver appends after a chunk. *)
Definition silence_segment (zero : sample) (sample_rate : Z) : buffer sample :=
  repeat zero (Z.to_nat (pause_samples sample_rate)).

(** What the loop appends to [all_audio] when it runs to its end. *)
Definition appended (zero : sample) (pipeline : Pipeline sample) (voice : str)
  (sample_rate : Z) (i : nat) (chunks : list str) : list (buffer sample) :=
  concat (map (fun segs => segs ++ [silence_segment zero sample_rate])
              (speech_segments pipeline voice i chunks)).

(** The lines printed before the loop starts. *)
Definition preamble (text : str) (chunk_size : Z) (max_chunks : option Z)
  : list (event sample) :=
  [Print (lit "Text split into " ++ dec (length (split_text text chunk_size))
          ++ lit " chunks for processing.")]
  ++ limit_message max_chunks
  ++ [Print (lit "Initializing Kokoro TTS...")]
  ++ [Print (lit "Converting "
             ++ dec (length (limit_chunks max_chunks (split_text text chunk_size)))
             ++ lit " text chunks to speech...")].

End WithSample.

Arguments synthesized {sample} tr.
Arguments written {sample} tr.
Arguments items_of {sample} g.
Arguments raised_of {sample} g.
Arguments speech_segments {sample} pipeline voice i chunks.
Arguments engine_ok {sample} pipeline voice i chunks.
Arguments samples {sample} bufs.
Arguments speech_samples {sample} speech.
Arguments stream {sample} silence speech.
Arguments chunk_error {sample} n e.
Arguments silence_segment {sample} zero sample_rate.
Arguments appended {sample} zero pipeline voice sample_rate i chunks.
Arguments preamble {sample} text chunk_size max_chunks.

End Props.
Import Props.

(* ================================================================== *)
(** * Further vocabulary: shapes of texts, groupings and runs *)
(* ================================================================== *)

Module Shape.

(** Only whitespace. *)
Definition blank (s : str) : bool := forallb isspace s.

(** Every whitespace character of [s] is the plain space U+0020. *)
Definition plain_spaces (s : str) : Prop :=
  forall c, In c s -> isspace c = true -> c = space.

(** Boolean form of [plain_spaces]. *)
Definition only_plain_spaces (s : str) : bool :=
  forallb (fun c => implb (isspace c) (c =? space)%N) s.

Definition is_ligature (c : char) : bool :=
  ((c =? lig_fi) || (c =? lig_fl))%N.

Definition head_letter (s : str) : bool :=
  match s with
  | c :: _ => Re.ascii_letter c
  | [] => false
  end.

(** A [.], [!] or [?] with an ASCII letter right after it. *)
Fixpoint has_tight_punctuation (s : str) : bool :=
  match s with
  | c :: t => (Re.sentence_end c && head_letter t) || has_tight_punctuation t
  | [] => false
  end.

(** The text without its whitespace. *)
Definition squeeze (s : str) : str := filter (fun c => negb (isspace c)) s.

(** Both ligatures written out. *)
Definition expand_ligatures (s : str) : str :=
  replace_char lig_fl (lit "fl") (replace_char lig_fi (lit "fi") s).

Definition head_of (g : list str) : str :=
  match g with
  | s :: _ => s
  | [] => []
  end.

(** In a list of groups of sentences, a group ends only where the next
    sentence, added to the group joined by spaces, would go past
    [chunk_size] by the test of the loop. *)
Fixpoint closed_when_full (chunk_size : Z) (groups : list (list str)) : Prop :=
  match groups with
  | g :: rest =>
      match rest with
      | g' :: _ =>
          (Z.of_nat (length (join [space] g))
           + Z.of_nat (length (head_of g')) > chunk_size)%Z
      | [] => True
      end
      /\ closed_when_full chunk_size rest
  | [] => True
  end.

(** The text of one item of the book, as [_extract] computes it. *)
Definition item_text (P : Platform) (item : Item) : result str :=
  (content <- decode_utf8 P (get_content item) ;;
   Ok (soup_get_text P content))%py.

End Shape.
Import Shape.

(* ================================================================== *)
(** * A concrete platform and engine, for running the model *)
(* ================================================================== *)

Module Demo.

(** [str.rfind] for a one-character argument; [-1] when absent. *)
Fixpoint rfind (c : char) (s : str) : Z :=
  match s with
  | [] => (-1)%Z
  | d :: s' =>
      let r := rfind c s' in
      if (r >=? 0)%Z then (r + 1)%Z
      else if (d =? c)%N then 0%Z else (-1)%Z
  end.

(** [posixpath.splitext]: the extension starts at the last dot of the
    last path component, leading dots of that component set aside. *)
Definition posix_splitext (p : str) : str * str :=
  let sepIndex := rfind 47%N p in
  let dotIndex := rfind dot p in
  if (dotIndex >? sepIndex)%Z
  then
    let start := Z.to_nat (sepIndex + 1) in
    let stem := firstn (Z.to_nat dotIndex - start) (skipn start p) in
    if forallb (fun c => (c =? dot)%N) stem
    then (p, [])
    else (firstn (Z.to_nat dotIndex) p, skipn (Z.to_nat dotIndex) p)
  else (p, []).

(** [str.lower] on ASCII text. *)
Definition ascii_lower (s : str) : str :=
  map (fun c => if ((65 <=? c) && (c <=? 90))%N then (c + 32)%N else c) s.

Definition ascii_digit (c : char) : bool := ((48 <=? c) && (c <=? 57))%N.

Definition ascii_decode (bs : list Byte.byte) : result str :=
  Ok (map Byte.to_N bs).

(** A file system holding one book, [book.epub], whose only document
    item has no text, and one file of another format, [notes.txt]. *)
Definition platform : Platform := {|
  os_path_exists := fun p =>
    if list_eq_dec N.eq_dec p (lit "book.epub") then true
    else if list_eq_dec N.eq_dec p (lit "notes.txt") then true else false;
  os_path_splitext := posix_splitext;
  str_lower := ascii_lower;
  re_digit := ascii_digit;
  read_epub := fun _ =>
    Ok [ {| get_type := ITEM_OTHER; get_content := [] |};
         {| get_type := ITEM_DOCUMENT; get_content := [] |} ];
  decode_utf8 := ascii_decode;
  soup_get_text := fun content => content
|}.

(** An engine that yields, for every chunk, one buffer with one sample
    (of value 1) per character. *)
Definition speak : Pipeline Z :=
  fun _ chunk _ => Yields [(chunk, [], map (fun _ => 1%Z) chunk)] None.

(** An engine that raises on the call number [k]. *)
Definition raises_at (k : nat) : Pipeline Z :=
  fun i chunk voice =>
    if (i =? k)%nat
    then Yields [] (Some (Exception (lit "synthesis failed")))
    else speak i chunk voice.

Definition kokoro (pipeline : Pipeline Z) : Kokoro Z := {|
  kokoro_available := true;
  KPipeline := fun _ => Ok pipeline;
  sf_write := fun _ _ _ => Ok tt
|}.

(** The text with a page-number line: [a], [12] and [b] on three lines. *)
Definition page_text : str := lit "a" ++ [nl] ++ lit "12" ++ [nl] ++ lit "b".

Definition five_sentences : str := lit "One. Two. Three. Four. Five.".

(** Two chunks of one sentence each, at 5 samples per second. *)
Definition short_run : list (event Z) * bool :=
  convert_to_speech 0%Z (kokoro speak) (lit "Hi. Ok.") (lit "out.wav")
                    (lit "af_heart") 3 5 (lit "a") None.

(** Five chunks of one sentence each; the engine raises on the third. *)
Definition failing_run : list (event Z) * bool :=
  convert_to_speech 0%Z (kokoro (raises_at 2)) five_sentences (lit "out.wav")
                    (lit "af_heart") 6 24000 (lit "a") None.

(** The command line [--input book.epub --output out/book.wav]. *)
Definition book_args : Args := {|
  input := lit "book.epub";
  output := lit "out/book.wav";
  voice := lit "af_heart";
  create_venv := false;
  chunk_size := 2000;
  sample_rate := 24000;
  lang := lit "a";
  max_chunks := None
|}.

End Demo.

(** Further engines and command lines for running the model. *)
Module DemoMore.


(** No engine installed. *)
Definition no_kokoro : Kokoro Z := {|
  kokoro_available := false;
  KPipeline := fun _ => Raise (Exception (lit "kokoro is not installed"));
  sf_write := fun _ _ _ => Ok tt
|}.

(** A file system like [Demo.platform] whose book has one document item
    with the text [Hi. Ok.]. *)
Definition platform : Platform := {|
  os_path_exists := os_path_exists Demo.platform;
  os_path_splitext := os_path_splitext Demo.platform;
  str_lower := str_lower Demo.platform;
  re_digit := re_digit Demo.platform;
  read_epub := fun _ =>
    Ok [ {| get_type := ITEM_DOCUMENT;
            get_content := map (fun c => match Byte.of_N c with
                                         | Some b => b
                                         | None => Byte.x00
                                         end) (lit "Hi. Ok.") |} ];
  decode_utf8 := decode_utf8 Demo.platform;
  soup_get_text := soup_get_text Demo.platform
|}.

(** The command line [--input missing.txt]. *)
Definition missing_args : Args := {|
  input := lit "missing.txt";
  output := lit "out/book.wav";
  voice := lit "af_heart";
  create_venv := true;
  chunk_size := 2000;
  sample_rate := 24000;
  lang := lit "a";
  max_chunks := None
|}.

(** The command line [--input notes.txt]. *)
Definition notes_args : Args := {|
  input := lit "notes.txt";
  output := lit "out/book.wav";
  voice := lit "af_heart";
  create_venv := false;
  chunk_size := 2000;
  sample_rate := 24000;
  lang := lit "a";
  max_chunks := None
|}.

End DemoMore.
(* ================================================================== *)
(** * Facts about the string operations *)
(* ================================================================== *)

Section StringFacts.

Lemma truthy_true (s : str) : truthy s = true <-> s <> [].
Proof. destruct s; simpl; split; congruence. Qed.

Lemma truthy_false (s : str) : truthy s = false <-> s = [].
Proof. destruct s; simpl; split; congruence. Qed.

Lemma truthy_app_r (a b : str) : truthy b = true -> truthy (a ++ b) = true.
Proof. destruct a, b; simpl; congruence. Qed.

Lemma isspace_space : isspace space = true.
Proof. reflexivity. Qed.

Lemma isspace_nl : isspace nl = true.
Proof. reflexivity. Qed.

Lemma isspace_dot : isspace dot = false.
Proof. reflexivity. Qed.

Lemma lstrip_suffix (s : str) :
  exists w, s = w ++ lstrip s /\ forallb isspace w = true.
Proof.
  induction s as [|c s IH]; simpl.
  - exists []; auto.
  - destruct (isspace c) eqn:E.
    + destruct IH as [w [Hw Hs]]. exists (c :: w); simpl.
      rewrite E, Hs. split; [congruence | reflexivity].
    + exists []; auto.
Qed.

Lemma lstrip_incl (s : str) : incl (lstrip s) s.
Proof.
  destruct (lstrip_suffix s) as [w [Hw _]].
  intros x Hx. rewrite Hw. apply in_or_app; auto.
Qed.

Lemma lstrip_idem (s : str) : lstrip (lstrip s) = lstrip s.
Proof.
  induction s as [|c s IH]; simpl; auto.
  destruct (isspace c) eqn:E; auto. simpl. now rewrite E.
Qed.

Lemma lstrip_snoc (s : str) (c : char) :
  isspace c = false -> lstrip (s ++ [c]) = lstrip s ++ [c].
Proof.
  intros Hc. induction s as [|d s IH]; simpl.
  - now rewrite Hc.
  - destruct (isspace d); auto.
Qed.

Lemma lstrip_rstrip (s : str) : lstrip s = s -> lstrip (rstrip s) = rstrip s.
Proof.
  unfold rstrip. destruct s as [|c s]; simpl; auto.
  destruct (isspace c) eqn:E.
  - intros H. exfalso.
    pose proof (lstrip_suffix s) as [w [Hw _]].
    assert (L : length (lstrip s) = S (length s)) by (rewrite H; reflexivity).
    rewrite Hw in L at 2. rewrite length_app in L. lia.
  - intros _. rewrite (lstrip_snoc _ _ E), rev_app_distr. simpl. now rewrite E.
Qed.

Lemma strip_incl (s : str) : incl (strip s) s.
Proof.
  unfold strip, rstrip. intros x Hx.
  apply lstrip_incl. apply in_rev. apply (lstrip_incl (rev (lstrip s))).
  now apply in_rev.
Qed.

Lemma strip_lstrip (s : str) : lstrip (strip s) = strip s.
Proof. unfold strip. apply lstrip_rstrip, lstrip_idem. Qed.

Lemma strip_idem (s : str) : strip (strip s) = strip s.
Proof.
  unfold strip at 1. rewrite strip_lstrip.
  unfold strip, rstrip. now rewrite rev_involutive, lstrip_idem.
Qed.

Lemma strip_cons_space (c : char) (s : str) :
  isspace c = true -> strip (c :: s) = strip s.
Proof. intros H. unfold strip. simpl. now rewrite H. Qed.

Lemma strip_nil : strip [] = [].
Proof. reflexivity. Qed.

Lemma replace_char_no_old (old : char) (new s : str) :
  ~ In old new -> ~ In old (replace_char old new s).
Proof.
  intros Hn. unfold replace_char. rewrite in_flat_map.
  intros [c [_ Hc]]. destruct (N.eqb_spec c old) as [E|Hne].
  - contradiction.
  - simpl in Hc. destruct Hc as [E|[]]. congruence.
Qed.

Lemma replace_char_id (old : char) (new s : str) :
  ~ In old s -> replace_char old new s = s.
Proof.
  unfold replace_char. induction s as [|c s IH]; simpl; auto.
  intros H. destruct (N.eqb_spec c old) as [->|Hne].
  - exfalso. apply H. now left.
  - simpl. f_equal. apply IH. intros Hin. apply H. now right.
Qed.

Lemma replace_char_keeps (old x : char) (new s : str) :
  ~ In x s -> ~ In x new -> ~ In x (replace_char old new s).
Proof.
  intros Hs Hn. unfold replace_char. rewrite in_flat_map.
  intros [c [Hc Hx]]. destruct (c =? old)%N.
  - contradiction.
  - simpl in Hx. destruct Hx as [E|[]]. subst. contradiction.
Qed.

Lemma split_not_nil (sep : char) (s : str) : split sep s <> [].
Proof.
  destruct s as [|c s]; simpl; [congruence|].
  destruct (c =? sep)%N; [congruence|]. destruct (split sep s); congruence.
Qed.

Lemma split_no_sep (sep : char) (s : str) :
  Forall (fun f => ~ In sep f) (split sep s).
Proof.
  induction s as [|c s IH]; simpl.
  - constructor; auto.
  - destruct (N.eqb_spec c sep) as [->|Hne].
    + constructor; auto.
    + destruct (split sep s) as [|f fs]; constructor.
      * intros [H|[]]. congruence.
      * constructor.
      * inversion IH; subst. intros [H|H]; [congruence | contradiction].
      * now inversion IH.
Qed.

Lemma split_incl (sep : char) (s : str) :
  Forall (fun f => incl f s) (split sep s).
Proof.
  induction s as [|c s IH]; simpl.
  - constructor; [apply incl_refl | constructor].
  - assert (T : Forall (fun f => incl f (c :: s)) (split sep s)).
    { eapply Forall_impl; [|exact IH]. intros f Hf. now apply incl_tl. }
    destruct (c =? sep)%N.
    + constructor; [apply incl_nil_l | exact T].
    + destruct (split sep s) as [|f fs]; constructor.
      * intros x [E|[]]. now left.
      * constructor.
      * inversion IH; subst. intros x [E|Hx]; [now left | right; auto].
      * now inversion T.
Qed.

Lemma split_none (sep : char) (s : str) :
  ~ In sep s -> split sep s = [s].
Proof.
  induction s as [|c s IH]; simpl; auto.
  intros H. destruct (N.eqb_spec c sep) as [->|Hne].
  - exfalso. apply H. now left.
  - rewrite IH; auto.
Qed.

Lemma split_app_sep (sep : char) (b r : str) :
  ~ In sep b -> split sep (b ++ sep :: r) = b :: split sep r.
Proof.
  induction b as [|c b IH]; simpl; intros H.
  - now rewrite N.eqb_refl.
  - destruct (N.eqb_spec c sep) as [->|Hne].
    + exfalso. apply H. now left.
    + rewrite IH; auto.
Qed.

Lemma split_cons_other (sep c : char) (s : str) :
  c <> sep ->
  exists f fs, split sep s = f :: fs /\ split sep (c :: s) = (c :: f) :: fs.
Proof.
  intros Hne. simpl. destruct (N.eqb_spec c sep); [contradiction|].
  destruct (split sep s) as [|f fs] eqn:E.
  - now apply split_not_nil in E.
  - eauto.
Qed.

Lemma join_cons2 (sep p q : str) (r : list str) :
  join sep (p :: q :: r) = p ++ sep ++ join sep (q :: r).
Proof. reflexivity. Qed.

End StringFacts.

(* ================================================================== *)
(** * Facts about the chunker *)
(* ================================================================== *)

Section ChunkerFacts.

Lemma sentences_unfold (text : str) :
  sentences text = of_fragments (split dot (replace_char nl [space] text)).
Proof. reflexivity. Qed.

Lemma split_text_pack (text : str) (chunk_size : Z) :
  split_text text chunk_size = pack chunk_size [] (sentences text).
Proof.
  unfold split_text.
  assert (G : forall sents chunks cur,
             (let (chunks', cur') := fold_left (step chunk_size) sents (chunks, cur) in
              if truthy cur' then chunks' ++ [cur'] else chunks')
             = chunks ++ pack chunk_size cur sents).
  { induction sents as [|s sents IH]; intros chunks cur; simpl.
    - destruct (truthy cur); [reflexivity | now rewrite app_nil_r].
    - destruct ((Z.of_nat (length cur) + Z.of_nat (length s) >? chunk_size)%Z
                && truthy cur) eqn:E.
      + rewrite IH, <- app_assoc. reflexivity.
      + destruct (truthy cur); apply IH. }
  apply (G (sentences text) [] []).
Qed.

Lemma sentences_ok (text : str) : Forall sentence_ok (sentences text).
Proof.
  rewrite sentences_unfold. unfold of_fragments.
  set (t := replace_char nl [space] text).
  assert (Hnl : ~ In nl t).
  { apply replace_char_no_old. intros [H|[]]. discriminate. }
  apply Forall_forall. intros s Hs.
  apply in_map_iff in Hs. destruct Hs as [f [<- Hf]].
  apply filter_In in Hf. destruct Hf as [Hf Ht].
  exists (strip f). split; [reflexivity|].
  pose proof (split_no_sep dot t) as Hd. rewrite Forall_forall in Hd.
  pose proof (split_incl dot t) as Hi. rewrite Forall_forall in Hi.
  repeat split.
  - now apply truthy_true.
  - apply strip_idem.
  - intros H. apply (Hd f Hf). now apply strip_incl.
  - intros H. apply Hnl. apply (Hi f Hf). now apply strip_incl.
Qed.

Lemma sentence_ok_truthy (s : str) : sentence_ok s -> truthy s = true.
Proof. intros [b [-> _]]. now apply truthy_app_r. Qed.

Lemma sentence_ok_no_nl (s : str) : sentence_ok s -> ~ In nl s.
Proof.
  intros [b [-> [_ [_ [_ H]]]]] Hin. apply in_app_or in Hin.
  destruct Hin as [Hin|[E|[]]]; [contradiction | discriminate].
Qed.

Lemma sentence_ok_chunk_ok (s : str) : sentence_ok s -> chunk_ok s.
Proof.
  intros H. pose proof (sentence_ok_no_nl _ H) as Hn.
  destruct H as [b [-> _]]. repeat split; auto.
  - intros E. now apply app_eq_nil in E as [_ E].
  - apply last_last.
Qed.

Lemma of_fragments_cons_space (c : char) (x : str) :
  isspace c = true -> c <> dot ->
  of_fragments (split dot (c :: x)) = of_fragments (split dot x).
Proof.
  intros Hc Hd. destruct (split_cons_other _ _ x Hd) as [f [fs [E1 E2]]].
  rewrite E1, E2. unfold of_fragments. cbn [filter].
  rewrite (strip_cons_space _ f Hc).
  destruct (truthy (strip f)); cbn [map]; [|reflexivity].
  now rewrite (strip_cons_space _ f Hc).
Qed.

(** Splitting the space-joined sentences gives the sentences back. *)
Lemma sentences_join (l : list str) :
  Forall sentence_ok l -> sentences (join [space] l) = l.
Proof.
  intros Hl. rewrite sentences_unfold.
  assert (Hid : replace_char nl [space] (join [space] l) = join [space] l).
  { apply replace_char_id. induction Hl as [|s l Hs Hl IH]; simpl; auto.
    destruct l as [|q r]; [now apply sentence_ok_no_nl|].
    intros Hin. apply in_app_or in Hin. destruct Hin as [Hin|Hin].
    - now apply (sentence_ok_no_nl _ Hs).
    - destruct Hin as [E|Hin]; [discriminate|]. now apply IH. }
  rewrite Hid. clear Hid.
  induction Hl as [|s l Hs Hl IH]; [reflexivity|].
  destruct Hs as [b [-> [Hb [Hst [Hd _]]]]].
  assert (Hhead : forall r, of_fragments (split dot ((b ++ [dot]) ++ r))
                            = (b ++ [dot]) :: of_fragments (split dot r)).
  { intros r. rewrite <- app_assoc. simpl. rewrite (split_app_sep _ _ _ Hd).
    unfold of_fragments at 1. cbn [filter]. rewrite Hst.
    apply truthy_true in Hb. rewrite Hb. cbn [map]. now rewrite Hst. }
  destruct l as [|q r].
  - pose proof (Hhead []) as H0. rewrite app_nil_r in H0.
    cbn [join]. rewrite H0. reflexivity.
  - rewrite join_cons2, Hhead. f_equal. simpl app.
    rewrite of_fragments_cons_space; [exact IH | reflexivity | discriminate].
Qed.

(** The chunks, joined by spaces, are the sentences joined by spaces:
    no sentence is dropped, truncated or reordered. *)
Lemma join_pack (chunk_size : Z) (sents : list str) :
  Forall (fun s => truthy s = true) sents ->
  forall cur,
    join [space] (pack chunk_size cur sents)
    = join [space] ((if truthy cur then [cur] else []) ++ sents).
Proof.
  induction 1 as [|s sents Hs Hall IH]; intros cur.
  - simpl. rewrite app_nil_r. reflexivity.
  - simpl pack.
    destruct ((Z.of_nat (length cur) + Z.of_nat (length s) >? chunk_size)%Z
              && truthy cur) eqn:E.
    + apply andb_true_iff in E as [_ Hc]. rewrite Hc.
      specialize (IH s). rewrite Hs in IH. simpl app in IH |- *.
      rewrite join_cons2, <- IH.
      destruct (pack chunk_size s sents) as [|p ps] eqn:P; [|reflexivity].
      exfalso. clear - P Hs. revert s Hs P.
      induction sents as [|q r IHr]; intros s Hs P; simpl in P.
      * rewrite Hs in P. discriminate.
      * rewrite Hs in P.
        destruct ((Z.of_nat (length s) + Z.of_nat (length q) >? chunk_size)%Z
                  && true); [discriminate|].
        apply (IHr (s ++ [space] ++ q)); auto. now destruct s.
    + destruct (truthy cur) eqn:Hc.
      * rewrite IH. rewrite truthy_app_r by reflexivity.
        simpl app. destruct sents as [|q r].
        -- reflexivity.
        -- rewrite !join_cons2. now rewrite <- !app_assoc.
      * rewrite IH, Hs. reflexivity.
Qed.

Lemma pack_chunk_ok (chunk_size : Z) (sents : list str) :
  Forall chunk_ok sents ->
  forall cur, cur = [] \/ chunk_ok cur ->
    Forall chunk_ok (pack chunk_size cur sents).
Proof.
  induction 1 as [|s sents Hs Hall IH]; intros cur Hc.
  - simpl. destruct Hc as [->|Hc]; simpl; auto.
    destruct cur; simpl; auto.
  - simpl.
    destruct ((Z.of_nat (length cur) + Z.of_nat (length s) >? chunk_size)%Z
              && truthy cur) eqn:E.
    + apply andb_true_iff in E as [_ E]. constructor.
      * destruct Hc as [->|Hc]; [discriminate | exact Hc].
      * apply IH. now right.
    + apply IH. right. destruct (truthy cur) eqn:T; [|exact Hs].
      destruct Hc as [->|[_ [_ Hn]]]; [discriminate|].
      destruct Hs as [Hne [Hl Hs]]. repeat split.
      * intros E'. apply app_eq_nil in E' as [_ E']. discriminate.
      * change (cur ++ [space] ++ s) with (cur ++ (space :: s)).
        destruct s as [|c s]; [congruence|].
        rewrite <- Hl. clear. induction cur as [|d cur IHc].
        -- reflexivity.
        -- simpl app. simpl last at 1.
           destruct (cur ++ space :: c :: s) eqn:Ec; [|exact IHc].
           now destruct cur.
      * intros Hin. apply in_app_or in Hin. destruct Hin as [Hin|[Hin|Hin]]; auto.
        discriminate.
Qed.

(** The size bound the loop keeps: a chunk is a single sentence or at
    most one character longer than [chunk_size]. *)
Lemma pack_bound (chunk_size : Z) (all : list str) (sents : list str) :
  incl sents all ->
  forall cur,
    cur = [] \/ In cur all \/ (Z.of_nat (length cur) <= chunk_size + 1)%Z ->
    Forall (fun c => In c all \/ (Z.of_nat (length c) <= chunk_size + 1)%Z)
           (pack chunk_size cur sents).
Proof.
  induction sents as [|s sents IH]; intros Hin cur Hc.
  - simpl. destruct cur; simpl; auto.
    constructor; auto. destruct Hc as [Hc|Hc]; [discriminate | exact Hc].
  - assert (Hs : In s all) by (apply Hin; now left).
    assert (Hr : incl sents all) by (intros x Hx; apply Hin; now right).
    simpl.
    destruct ((Z.of_nat (length cur) + Z.of_nat (length s) >? chunk_size)%Z
              && truthy cur) eqn:E.
    + apply andb_true_iff in E as [_ E]. constructor.
      * destruct Hc as [->|Hc]; [discriminate | exact Hc].
      * apply IH; auto.
    + apply IH; auto. destruct (truthy cur) eqn:T; [|auto].
      rewrite andb_true_r in E. right; right.
      rewrite !length_app. simpl. lia.
Qed.

End ChunkerFacts.

(* ================================================================== *)
(** * Facts about the substitutions of [clean_text] *)
(* ================================================================== *)

Section CleanFacts.

Lemma length_ind (P : str -> Prop) :
  (forall s, (forall t, length t < length s -> P t) -> P s) ->
  forall s, P s.
Proof.
  intros H s. remember (length s) as n eqn:E.
  revert s E. induction n as [n IH] using lt_wf_ind.
  intros s ->. apply H. intros t Ht. now apply (IH (length t)).
Qed.

Lemma sub_from_skip (p : Re.pattern) (repl : str -> str) (s : str) (n : nat) :
  Re.sub_from p repl n s = Re.sub_from p repl 0 (skipn n s).
Proof.
  revert n. induction s as [|c s IH]; intros [|n]; try reflexivity.
  simpl. apply IH.
Qed.

Lemma match_star_span (f : char -> bool) (s : str) :
  Re.match_star f (Re.match_here []) s = Some (span f s).
Proof.
  induction s as [|c s IH]; cbn [Re.match_star span]; [reflexivity|].
  destruct (f c); [now rewrite IH | reflexivity].
Qed.

Lemma skipn_span_lstrip (s : str) : skipn (span isspace s) s = lstrip s.
Proof.
  induction s as [|c s IH]; simpl; auto. destruct (isspace c); auto.
Qed.

Lemma lstrip_length (s : str) : length (lstrip s) <= length s.
Proof.
  destruct (lstrip_suffix s) as [w [E _]]. rewrite E at 2.
  rewrite length_app. lia.
Qed.

Lemma lstrip_head (s : str) : head_space (lstrip s) = false.
Proof.
  induction s as [|c s IH]; simpl; auto.
  destruct (isspace c) eqn:E; auto.
Qed.

(** ** [re.sub(r'\s+', ' ', text)] *)

Lemma collapse_nil : collapse [] = [].
Proof. reflexivity. Qed.

Lemma collapse_space (c : char) (s : str) :
  isspace c = true -> collapse (c :: s) = space :: collapse (lstrip s).
Proof.
  intros H. unfold collapse, Re.sub. cbn [Re.sub_from Re.match_here].
  rewrite H, match_star_span. cbn [option_map app].
  now rewrite sub_from_skip, skipn_span_lstrip.
Qed.

Lemma collapse_other (c : char) (s : str) :
  isspace c = false -> collapse (c :: s) = c :: collapse s.
Proof.
  intros H. unfold collapse, Re.sub. cbn [Re.sub_from Re.match_here].
  now rewrite H.
Qed.

Lemma collapse_head (s : str) : head_space (collapse s) = head_space s.
Proof.
  destruct s as [|c s]; auto. destruct (isspace c) eqn:E.
  - rewrite collapse_space by exact E. simpl. now rewrite E.
  - rewrite collapse_other by exact E. reflexivity.
Qed.

(** After the first substitution every whitespace character is a space
    and no two of them are adjacent. *)
Lemma collapse_spec (s : str) :
  has_space_run (collapse s) = false
  /\ (forall c, In c (collapse s) -> isspace c = true -> c = space).
Proof.
  induction s as [s IH] using length_ind.
  destruct s as [|c s]; [split; [reflexivity | intros c []]|].
  destruct (isspace c) eqn:E.
  - rewrite collapse_space by exact E.
    destruct (IH (lstrip s)) as [R A].
    { simpl. pose proof (lstrip_length s). lia. }
    split.
    + cbn [has_space_run]. rewrite collapse_head, lstrip_head, R.
      now rewrite andb_false_r.
    + intros d [<-|Hd] Hs; auto.
  - rewrite collapse_other by exact E.
    destruct (IH s) as [R A]; [simpl; lia|].
    split.
    + cbn [has_space_run]. now rewrite E, R.
    + intros d [<-|Hd] Hs; [congruence | auto].
Qed.

Lemma collapse_no_nl (s : str) : ~ In nl (collapse s).
Proof.
  intros H. apply (proj2 (collapse_spec s)) in H; [discriminate | reflexivity].
Qed.

(** ** [re.sub(r'\n\s*\d+\s*\n', '\n', text)] *)

(** The pattern starts with a line break: on a text without one it
    matches nowhere. *)
Lemma page_number_needs_nl (digit : char -> bool) (repl : str -> str) (s : str) :
  ~ In nl s -> Re.sub (page_number digit) repl s = s.
Proof.
  unfold Re.sub. induction s as [|c s IH]; intros H; [reflexivity|].
  cbn [Re.sub_from page_number Re.match_here]. unfold Re.just at 1.
  destruct (N.eqb_spec c nl) as [->|Hc].
  - exfalso. apply H. now left.
  - f_equal. apply IH. intros Hin. apply H. now right.
Qed.

(** The second substitution of [clean_text] never changes its input. *)
Lemma page_number_step_dead (digit : char -> bool) (repl : str -> str) (text : str) :
  Re.sub (page_number digit) repl (collapse text) = collapse text.
Proof. apply page_number_needs_nl, collapse_no_nl. Qed.

(** ** Runs of whitespace *)

Lemma has_space_run_app (a b : str) :
  has_space_run (a ++ b) = false ->
  has_space_run a = false /\ has_space_run b = false.
Proof.
  induction a as [|c a IH]; simpl; auto.
  intros H. apply orb_false_iff in H as [H1 H2].
  destruct (IH H2) as [Ha Hb]. split; auto.
  rewrite Ha, orb_false_r. destruct a as [|d a]; simpl in *.
  - now rewrite andb_false_r.
  - exact H1.
Qed.

Lemma has_space_run_exists (s : str) :
  has_space_run s = true <->
  exists l1 c1 c2 l2,
    s = l1 ++ c1 :: c2 :: l2 /\ isspace c1 = true /\ isspace c2 = true.
Proof.
  split.
  - induction s as [|c s IH]; simpl; [discriminate|].
    intros H. apply orb_true_iff in H as [H|H].
    + apply andb_true_iff in H as [H1 H2]. destruct s as [|d s]; [discriminate|].
      exists [], c, d, s. auto.
    + destruct (IH H) as [l1 [c1 [c2 [l2 [-> [H1 H2]]]]]].
      exists (c :: l1), c1, c2, l2. auto.
  - intros [l1 [c1 [c2 [l2 [-> [H1 H2]]]]]].
    induction l1 as [|c l1 IH]; simpl.
    + now rewrite H1, H2.
    + rewrite IH. apply orb_true_r.
Qed.

Lemma lstrip_no_run (s : str) :
  has_space_run s = false -> has_space_run (lstrip s) = false.
Proof.
  destruct (lstrip_suffix s) as [w [E _]]. intros H.
  rewrite E in H. now apply has_space_run_app in H.
Qed.

Lemma rstrip_prefix (s : str) : exists w, s = rstrip s ++ w.
Proof.
  unfold rstrip. destruct (lstrip_suffix (rev s)) as [w [E _]].
  exists (rev w). rewrite <- rev_app_distr, <- E. now rewrite rev_involutive.
Qed.

Lemma strip_no_run (s : str) :
  has_space_run s = false -> has_space_run (strip s) = false.
Proof.
  intros H. unfold strip. apply lstrip_no_run in H.
  destruct (rstrip_prefix (lstrip s)) as [w E]. rewrite E in H.
  now apply has_space_run_app in H.
Qed.

(** ** [text.replace(old, new)] with [new] free of whitespace *)

Lemma replace_char_head (old n1 : char) (new s : str) :
  isspace old = false -> isspace n1 = false ->
  head_space (replace_char old (n1 :: new) s) = head_space s.
Proof.
  intros Ho Hn. destruct s as [|c s]; auto.
  unfold replace_char. simpl. destruct (N.eqb_spec c old) as [->|Hc]; simpl.
  - now rewrite Ho, Hn.
  - reflexivity.
Qed.

Lemma no_space_prefix_run (new r : str) :
  forallb (fun c => negb (isspace c)) new = true ->
  has_space_run (new ++ r) = has_space_run r.
Proof.
  induction new as [|c new IH]; simpl; auto.
  intros H. apply andb_true_iff in H as [Hc Hn].
  apply negb_true_iff in Hc. rewrite Hc. simpl. now apply IH.
Qed.

Lemma replace_char_no_run (old n1 : char) (new s : str) :
  isspace old = false ->
  forallb (fun c => negb (isspace c)) (n1 :: new) = true ->
  has_space_run s = false ->
  has_space_run (replace_char old (n1 :: new) s) = false.
Proof.
  intros Ho Hn. pose proof Hn as Hn'. simpl in Hn'.
  apply andb_true_iff in Hn' as [H1 _]. apply negb_true_iff in H1.
  induction s as [|c s IH]; auto.
  intros H. cbn [has_space_run] in H. apply orb_false_iff in H as [Hc Hs].
  change (replace_char old (n1 :: new) (c :: s))
    with ((if (c =? old)%N then n1 :: new else [c])
          ++ replace_char old (n1 :: new) s).
  destruct (c =? old)%N.
  - rewrite no_space_prefix_run by exact Hn. now apply IH.
  - cbn [app has_space_run].
    rewrite (replace_char_head _ _ _ s Ho H1), Hc. now apply IH.
Qed.

(** ** [re.sub(r'([.!?])([A-Za-z])', r'\1 \2', text)] *)

Lemma sentence_end_not_space (c : char) :
  Re.sentence_end c = true -> isspace c = false.
Proof.
  unfold Re.sentence_end. intros H.
  apply orb_true_iff in H as [H|H]; [apply orb_true_iff in H as [H|H]|];
    apply N.eqb_eq in H; subst; reflexivity.
Qed.

Lemma ascii_letter_not_space (c : char) :
  Re.ascii_letter c = true -> isspace c = false.
Proof.
  unfold Re.ascii_letter, isspace. intros H.
  apply orb_true_iff in H as [H|H]; apply andb_true_iff in H as [H1 H2];
    apply N.leb_le in H1; apply N.leb_le in H2;
    repeat match goal with
           | |- (_ || _)%bool = false => apply orb_false_iff; split
           | |- (_ && _)%bool = false => apply andb_false_iff
           end;
    try (apply N.eqb_neq; lia);
    try (right; apply N.leb_gt; lia); try (left; apply N.leb_gt; lia).
Qed.

Lemma punctuation_cons (a : char) (s : str) :
  punctuation (a :: s) =
  match s with
  | b :: r =>
      if Re.sentence_end a && Re.ascii_letter b
      then a :: space :: b :: punctuation r
      else a :: punctuation s
  | [] => [a]
  end.
Proof.
  unfold punctuation, Re.sub. cbn [Re.sub_from Re.match_here].
  destruct (Re.sentence_end a); cbn [andb].
  - destruct s as [|b r]; [reflexivity|]. cbn [Re.match_here].
    destruct (Re.ascii_letter b); reflexivity.
  - destruct s; reflexivity.
Qed.

Lemma punctuation_head (s : str) : head_space (punctuation s) = head_space s.
Proof.
  destruct s as [|a s]; auto. rewrite punctuation_cons.
  destruct s as [|b r]; auto.
  destruct (Re.sentence_end a && Re.ascii_letter b); reflexivity.
Qed.

Lemma punctuation_no_run (s : str) :
  has_space_run s = false -> has_space_run (punctuation s) = false.
Proof.
  induction s as [s IH] using length_ind. intros H.
  destruct s as [|a s]; auto. rewrite punctuation_cons.
  destruct s as [|b r]; [exact H|].
  cbn [has_space_run head_space] in H.
  apply orb_false_iff in H as [Hab H]. apply orb_false_iff in H as [Hbr Hr].
  destruct (Re.sentence_end a && Re.ascii_letter b) eqn:E.
  - apply andb_true_iff in E as [Ea Eb].
    apply sentence_end_not_space in Ea. apply ascii_letter_not_space in Eb.
    cbn [has_space_run head_space]. rewrite Ea, Eb. cbn [andb orb].
    rewrite andb_false_r. cbn [orb]. apply IH; [simpl; lia | exact Hr].
  - cbn [has_space_run]. rewrite punctuation_head. cbn [head_space].
    rewrite Hab. cbn [orb]. apply IH; [simpl; lia|].
    cbn [has_space_run head_space]. now rewrite Hbr, Hr.
Qed.

(** ** [clean_text] as the composition of its five steps *)

Lemma clean_text_steps (P : Platform) (text : str) :
  clean_text P text =
  strip (punctuation
           (replace_char lig_fl (lit "fl")
              (replace_char lig_fi (lit "fi") (collapse text)))).
Proof.
  unfold clean_text. fold (collapse text).
  change (Re.sub _ (fun _ => [nl]) (collapse text))
    with (Re.sub (page_number (re_digit P)) (fun _ => [nl]) (collapse text)).
  rewrite page_number_step_dead. reflexivity.
Qed.

End CleanFacts.

(* ================================================================== *)
(** * Facts about the synthesis driver *)
(* ================================================================== *)

Section DriverFacts.

Variable sample : Type.
Variable zero : sample.

Lemma synthesized_app (a b : list (event sample)) :
  synthesized (a ++ b) = synthesized a ++ synthesized b.
Proof.
  induction a as [|ev a IH]; simpl; auto.
  destruct ev; simpl; now rewrite ?IH.
Qed.

Lemma written_app (a b : list (event sample)) : written (a ++ b) = written a ++ written b.
Proof.
  induction a as [|ev a IH]; simpl; auto.
  destruct ev; simpl; now rewrite ?IH.
Qed.

Lemma synthesize_in_synthesized (tr : list (event sample)) (j : nat) (c v : str) :
  In (Synthesize j c v) tr -> In c (synthesized tr).
Proof.
  induction tr as [|ev tr IH]; simpl; auto.
  intros [->|H]; [now left|]. destruct ev; simpl; auto.
Qed.

Lemma synthesized_nil_not_in (tr : list (event sample)) (j : nat) (c v : str) :
  synthesized tr = [] -> ~ In (Synthesize j c v) tr.
Proof.
  intros E H. apply synthesize_in_synthesized in H. rewrite E in H. exact H.
Qed.

Lemma limit_message_quiet (mc : option Z) :
  synthesized (limit_message (sample := sample) mc) = []
  /\ written (limit_message (sample := sample) mc) = [].
Proof.
  unfold limit_message. destruct mc as [m|]; [|auto].
  destruct (m >? 0)%Z; auto.
Qed.

Lemma pause_samples_quot (sr : Z) : pause_samples sr = (sr ÷ 2)%Z.
Proof.
  unfold pause_samples, int_of_float, pause_duration, Qmult, inject_Z.
  cbn [Qnum Qden]. now rewrite Z.mul_1_l.
Qed.

Lemma pause_samples_nonneg (sr : Z) : (0 <= sr)%Z -> (0 <= pause_samples sr)%Z.
Proof. intros H. rewrite pause_samples_quot. now apply Z.quot_pos. Qed.

Section Loop.

Variable pipeline : Pipeline sample.
Variable voice : str.
Variable sample_rate : Z.

Lemma synthesize_chunk_ok (i : nat) (chunk : str) (all_audio : list (buffer sample)) :
  raised_of (pipeline i chunk voice) = None ->
  (0 <= pause_samples sample_rate)%Z ->
  synthesize_chunk zero pipeline voice sample_rate i chunk all_audio
  = Ok (all_audio ++ map audio_of (items_of (pipeline i chunk voice)) ++ [silence_segment zero sample_rate]).
Proof.
  intros Hr Hp. unfold synthesize_chunk, np_zeros.
  destruct (pipeline i chunk voice) as [items raised]. simpl in Hr. subst raised.
  destruct (Z.ltb_spec (pause_samples sample_rate) 0); [lia | reflexivity].
Qed.

Lemma synthesize_chunk_raises (i : nat) (chunk : str) (e : exn)
  (all_audio : list (buffer sample)) :
  raised_of (pipeline i chunk voice) = Some e ->
  synthesize_chunk zero pipeline voice sample_rate i chunk all_audio = Raise e.
Proof.
  intros Hr. unfold synthesize_chunk.
  destruct (pipeline i chunk voice) as [items raised]. simpl in Hr. now subst.
Qed.

Lemma synthesize_chunk_inv (i : nat) (chunk : str)
  (all_audio all_audio' : list (buffer sample)) :
  synthesize_chunk zero pipeline voice sample_rate i chunk all_audio = Ok all_audio' ->
  raised_of (pipeline i chunk voice) = None
  /\ (0 <= pause_samples sample_rate)%Z
  /\ all_audio' = all_audio ++ map audio_of (items_of (pipeline i chunk voice))
                  ++ [silence_segment zero sample_rate].
Proof.
  unfold synthesize_chunk, np_zeros.
  destruct (pipeline i chunk voice) as [items [e|]]; [discriminate|].
  destruct (Z.ltb_spec (pause_samples sample_rate) 0); [discriminate|].
  simpl. intros [= <-]. auto.
Qed.

(** A loop that runs to its end synthesized every chunk, in order. *)
Lemma process_chunks_completes (total : nat) (chunks : list str) :
  forall i all_audio,
    engine_ok pipeline voice i chunks ->
    (0 <= pause_samples sample_rate)%Z ->
    exists tr,
      process_chunks zero pipeline voice sample_rate total i chunks all_audio
      = (tr, Some (all_audio ++ appended zero pipeline voice sample_rate i chunks))
      /\ synthesized tr = chunks /\ written tr = [].
Proof.
  induction chunks as [|chunk rest IH]; intros i all_audio Hok Hp.
  - exists []. unfold appended. simpl. now rewrite app_nil_r.
  - destruct Hok as [Hr Hok]. cbn [process_chunks].
    rewrite (synthesize_chunk_ok _ _ all_audio Hr Hp).
    destruct (IH (S i) (all_audio ++ map audio_of (items_of (pipeline i chunk voice))
                        ++ [silence_segment zero sample_rate]) Hok Hp) as [tr [E [Hs Hw]]].
    rewrite E. eexists. split; [|split].
    + f_equal. f_equal. unfold appended. cbn [speech_segments map concat].
      now rewrite <- !app_assoc.
    + simpl. now rewrite Hs.
    + simpl. exact Hw.
Qed.

Lemma process_chunks_some (total : nat) (chunks : list str) :
  forall i all_audio tr all_audio',
    process_chunks zero pipeline voice sample_rate total i chunks all_audio
    = (tr, Some all_audio') ->
    engine_ok pipeline voice i chunks
    /\ (chunks <> [] -> (0 <= pause_samples sample_rate)%Z)
    /\ all_audio' = all_audio ++ appended zero pipeline voice sample_rate i chunks
    /\ synthesized tr = chunks /\ written tr = [].
Proof.
  induction chunks as [|chunk rest IH]; intros i all_audio tr all_audio' H.
  - simpl in H. injection H as <- <-. unfold appended. simpl.
    rewrite app_nil_r. repeat split; auto. congruence.
  - cbn [process_chunks] in H.
    destruct (synthesize_chunk zero pipeline voice sample_rate i chunk all_audio)
      as [a1|e] eqn:S1; [|discriminate].
    apply synthesize_chunk_inv in S1 as [Hr [Hp ->]].
    destruct (process_chunks zero pipeline voice sample_rate total (S i) rest _)
      as [tr' r] eqn:E.
    injection H as <- ->. apply IH in E as [Hok [_ [-> [Hs Hw]]]].
    repeat split; auto.
    + unfold appended. cbn [speech_segments map concat]. now rewrite <- !app_assoc.
    + simpl. now rewrite Hs.
Qed.

(** The first chunk on which the engine raises ends the loop: the chunks
    up to it were synthesized, its number is printed, nothing is
    written. *)
Lemma process_chunks_aborts (total : nat) (chunks : list str) :
  forall k i all_audio chunk e,
    nth_error chunks k = Some chunk ->
    engine_ok pipeline voice i (firstn k chunks) ->
    raised_of (pipeline (i + k) chunk voice) = Some e ->
    (0 <= pause_samples sample_rate)%Z ->
    exists tr,
      process_chunks zero pipeline voice sample_rate total i chunks all_audio
      = (tr, None)
      /\ In (chunk_error (i + k + 1) e) tr
      /\ synthesized tr = firstn (S k) chunks /\ written tr = [].
Proof.
  induction chunks as [|c rest IH]; intros k i all_audio chunk e Hn Hok Hr Hp.
  - destruct k; discriminate.
  - destruct k as [|k].
    + injection Hn as ->. rewrite Nat.add_0_r in *. cbn [process_chunks].
      rewrite (synthesize_chunk_raises _ _ _ all_audio Hr).
      eexists. split; [reflexivity|]. split; [|split; reflexivity].
      apply in_or_app. right. left. reflexivity.
    + cbn [nth_error] in Hn. cbn [firstn] in Hok. destruct Hok as [Hc Hok].
      cbn [process_chunks]. rewrite (synthesize_chunk_ok _ _ all_audio Hc Hp).
      rewrite Nat.add_succ_r in Hr.
      destruct (IH k (S i) (all_audio ++ map audio_of (items_of (pipeline i c voice))
                            ++ [silence_segment zero sample_rate]) chunk e Hn Hok Hr Hp)
        as [tr [E [Hin [Hs Hw]]]].
      rewrite E. eexists. split; [reflexivity|]. split; [|split].
      * apply in_or_app. right.
        replace (i + S k + 1) with (S i + k + 1) by lia. exact Hin.
      * simpl. now rewrite Hs.
      * simpl. exact Hw.
Qed.

(** An engine call that raised ended the loop there: its chunk number is
    printed and it is the last chunk handed to the engine. *)
Lemma process_chunks_raised (total : nat) (chunks : list str) :
  forall i all_audio tr r j c v e,
    process_chunks zero pipeline voice sample_rate total i chunks all_audio
    = (tr, r) ->
    In (Synthesize j c v) tr ->
    raised_of (pipeline j c v) = Some e ->
    r = None
    /\ In (chunk_error (j + 1) e) tr
    /\ i <= j
    /\ nth_error chunks (j - i) = Some c
    /\ synthesized tr = firstn (S (j - i)) chunks.
Proof.
  induction chunks as [|c0 rest IH]; intros i all_audio tr r j c v e H Hin Hr.
  - simpl in H. injection H as <- <-. destruct Hin.
  - cbn [process_chunks] in H.
    destruct (synthesize_chunk zero pipeline voice sample_rate i c0 all_audio)
      as [a1|e0] eqn:S1.
    + destruct (process_chunks zero pipeline voice sample_rate total (S i) rest a1)
        as [tr' r'] eqn:E.
      cbn [app] in H. injection H as <- <-.
      destruct Hin as [Hin|[Hin|[Hin|Hin]]]; try discriminate.
      * injection Hin as Ej Ec Ev. subst j c v.
        apply synthesize_chunk_inv in S1 as [S1 _]. congruence.
      * destruct (IH _ _ _ _ _ _ _ _ E Hin Hr) as [-> [He [Hle [Hn Hs]]]].
        replace (j - i) with (S (j - S i)) by lia.
        repeat split; auto.
        -- do 3 right. exact He.
        -- lia.
        -- cbn [synthesized]. now rewrite Hs.
    + cbn [app] in H. injection H as <- <-.
      destruct Hin as [Hin|[Hin|[Hin|[Hin|[Hin|[]]]]]]; try discriminate.
      injection Hin as Ej Ec Ev. subst j c v.
      rewrite (synthesize_chunk_raises _ _ _ all_audio Hr) in S1.
      injection S1 as ->. rewrite Nat.sub_diag.
      repeat split; auto.
      do 3 right. left. reflexivity.
Qed.

(** Whatever happens the loop itself writes no file. *)
Lemma process_chunks_writes_nothing (total : nat) (chunks : list str) :
  forall i all_audio,
    written (fst (process_chunks zero pipeline voice sample_rate total i
                                 chunks all_audio)) = [].
Proof.
  induction chunks as [|c rest IH]; intros i all_audio; [reflexivity|].
  cbn [process_chunks].
  destruct (synthesize_chunk zero pipeline voice sample_rate i c all_audio)
    as [a1|e]; [|reflexivity].
  specialize (IH (S i) a1).
  destruct (process_chunks zero pipeline voice sample_rate total (S i) rest a1).
  simpl in *. exact IH.
Qed.

Lemma appended_nil_iff (i : nat) (chunks : list str) :
  appended zero pipeline voice sample_rate i chunks = [] <-> chunks = [].
Proof.
  split; [|intros ->; reflexivity].
  destruct chunks as [|c rest]; auto. unfold appended.
  cbn [speech_segments map concat]. intros H.
  apply app_eq_nil in H as [H _]. apply app_eq_nil in H as [_ H]. discriminate.
Qed.

Lemma concat_appended (i : nat) (chunks : list str) :
  concat (appended zero pipeline voice sample_rate i chunks)
  = stream (silence_segment zero sample_rate) (speech_segments pipeline voice i chunks).
Proof.
  unfold appended, stream.
  induction (speech_segments pipeline voice i chunks) as [|segs l IH]; auto.
  cbn [map concat]. rewrite concat_app, concat_app, IH. simpl.
  now rewrite app_nil_r.
Qed.

Lemma speech_segments_length (i : nat) (chunks : list str) :
  length (speech_segments pipeline voice i chunks) = length chunks.
Proof.
  revert i. induction chunks as [|c rest IH]; intros i; simpl; auto.
Qed.

End Loop.

Lemma stream_length (silence : buffer sample)
  (speech : list (list (buffer sample))) :
  Z.of_nat (length (stream silence speech))
  = (speech_samples speech
     + Z.of_nat (length speech) * Z.of_nat (length silence))%Z.
Proof.
  unfold stream, speech_samples, samples.
  induction speech as [|segs l IH]; [reflexivity|].
  cbn [map concat fold_right length]. rewrite !length_app.
  rewrite !Nat2Z.inj_add, IH. lia.
Qed.

Lemma preamble_quiet (text : str) (chunk_size : Z) (max_chunks : option Z) :
  synthesized (preamble (sample := sample) text chunk_size max_chunks) = []
  /\ written (preamble (sample := sample) text chunk_size max_chunks) = [].
Proof.
  unfold preamble. destruct (limit_message_quiet max_chunks) as [Hs Hw].
  cbn [app synthesized written]. rewrite synthesized_app, written_app, Hs, Hw.
  split; reflexivity.
Qed.

(** [convert_to_speech] once the engine is there: the preamble, the
    loop, then the write or the complaint. *)
Lemma convert_to_speech_unfold (K : Kokoro sample) (pipeline : Pipeline sample)
  (text output_file voice : str) (chunk_size sample_rate : Z)
  (lang_code : str) (max_chunks : option Z) :
  kokoro_available K = true ->
  KPipeline K lang_code = Ok pipeline ->
  let chunks := limit_chunks max_chunks (split_text text chunk_size) in
  convert_to_speech zero K text output_file voice chunk_size sample_rate
                    lang_code max_chunks
  = match process_chunks zero pipeline voice sample_rate (length chunks) 0
                         chunks [] with
    | (tr_loop, None) => (preamble text chunk_size max_chunks ++ tr_loop, false)
    | (tr_loop, Some []) =>
        (preamble text chunk_size max_chunks ++ tr_loop
         ++ [Print (lit "No audio was generated.")], false)
    | (tr_loop, Some (b :: bs)) =>
        let data := np_concatenate (b :: bs) in
        match sf_write K output_file data sample_rate with
        | Ok _ =>
            (preamble text chunk_size max_chunks ++ tr_loop
             ++ [SfWrite output_file data sample_rate;
                 Print (lit "Audio saved to: " ++ output_file)], true)
        | Raise e =>
            (preamble text chunk_size max_chunks ++ tr_loop
             ++ [SfWrite output_file data sample_rate] ++ tts_error e, false)
        end
    end.
Proof.
  intros Ha Hk chunks. unfold convert_to_speech. rewrite Ha, Hk. cbn [negb].
  fold chunks. unfold preamble. fold chunks.
  destruct (process_chunks zero pipeline voice sample_rate (length chunks) 0
                           chunks []) as [tr_loop [[|b bs]|]];
    try destruct (sf_write K output_file _ sample_rate);
    now rewrite <- !app_assoc.
Qed.

(** [main] hands the text to [convert_to_speech] with the cap mapped by
    [unlimited_if_zero], and exits with 0 exactly when it succeeds. *)
Lemma main_converts (P : Platform) (K : Kokoro sample) (args : Args) (text : str) :
  kokoro_available K = true ->
  os_path_exists P (input args) = true ->
  str_lower P (snd (os_path_splitext P (input args))) = lit ".epub" ->
  extract_text P (input args) = Ok text ->
  let run :=
    convert_to_speech zero K text (output args) (voice args) (chunk_size args)
                      (sample_rate args) (lang args)
                      (unlimited_if_zero (max_chunks args)) in
  exists before after,
    main zero P K args
    = (before ++ fst run ++ after, if snd run then 0%Z else 1%Z).
Proof.
  intros Ha Hx He Ht run. unfold main. rewrite Ha, Hx, He, Ht. cbn [negb].
  destruct (list_eq_dec N.eq_dec (lit ".epub") (lit ".epub")) as [_|N];
    [|contradiction].
  cbn [negb]. fold run. destruct run as [tr3 [|]]; cbn [fst snd];
    eexists; eexists; reflexivity.
Qed.

End DriverFacts.

(* ================================================================== *)
(** * The chunker: size bound, losslessness, idempotence, chunk shape *)
(* ================================================================== *)

(** The chunks joined by single spaces are the sentences joined by single
    spaces: the chunker drops, truncates and reorders nothing. *)
Lemma split_text_lossless (text : str) (chunk_size : Z) :
  join [space] (split_text text chunk_size) = join [space] (sentences text).
Proof.
  rewrite split_text_pack, join_pack; [reflexivity|].
  eapply Forall_impl; [|apply sentences_ok]. apply sentence_ok_truthy.
Qed.

(** The bound the loop does keep: every chunk is one sentence on its own
    or has at most [chunk_size + 1] characters. *)
Lemma split_text_bound (text : str) (chunk_size : Z) :
  Forall (fun c => In c (sentences text)
                   \/ (Z.of_nat (length c) <= chunk_size + 1)%Z)
         (split_text text chunk_size).
Proof.
  rewrite split_text_pack. apply pack_bound; [apply incl_refl | now left].
Qed.

(** The scenario of the specification: three sentences, chunk size 15. *)
Example split_text_scenario :
  split_text (lit "Hello world. This is a test. Short.") 15
  = [lit "Hello world."; lit "This is a test."; lit "Short."].
Proof. vm_compute. reflexivity. Qed.

(** C1.  The claim bounds every chunk of more than one sentence by the
    chunk size.  The loop compares [len(current_chunk) + len(sentence)]
    with the chunk size and then joins the two with a space it did not
    count: with chunk size 6 the sentences "Hi." and "Ok." end up in one
    chunk of 7 characters. *)
Theorem split_text_overlong_chunk :
  clean_text Demo.platform (lit "Hi. Ok.") = lit "Hi. Ok."
  /\ sentences (lit "Hi. Ok.") = [lit "Hi."; lit "Ok."]
  /\ split_text (lit "Hi. Ok.") 6 = [lit "Hi. Ok."]
  /\ Z.of_nat (length (lit "Hi. Ok.")) = 7%Z.
Proof. vm_compute. repeat split; reflexivity. Qed.

(** C5.  Chunking the space-joined chunks again, with the same chunk
    size, gives the same chunks. *)
Theorem split_text_idempotent (text : str) (chunk_size : Z) :
  split_text (join [space] (split_text text chunk_size)) chunk_size
  = split_text text chunk_size.
Proof.
  rewrite (split_text_pack (join _ _)), split_text_lossless.
  rewrite sentences_join by apply sentences_ok.
  symmetry. apply split_text_pack.
Qed.

(** C10, as stated, fails on a text without a period that is empty (no
    chunk at all) or that has a line break inside (the chunk has a space
    in its place). *)
Lemma no_period_counterexample :
  ~ In dot [] /\ split_text [] 10 <> [strip [] ++ [dot]]
  /\ ~ In dot (lit "a" ++ [nl] ++ lit "b")
  /\ split_text (lit "a" ++ [nl] ++ lit "b") 10
     <> [strip (lit "a" ++ [nl] ++ lit "b") ++ [dot]].
Proof.
  vm_compute. repeat split; try discriminate.
  - intros [].
  - intros H. repeat (destruct H as [H|H]; [discriminate|]). exact H.
Qed.

(** C10, amended.  Every chunk is non-empty, ends with a period and has
    no line break; a text without a period that is not blank gives one
    chunk: the text with its line breaks turned into spaces, trimmed,
    and a period appended. *)
Theorem split_text_chunk_shape (text : str) (chunk_size : Z) :
  Forall chunk_ok (split_text text chunk_size)
  /\ (~ In dot text ->
      strip (replace_char nl [space] text) <> [] ->
      split_text text chunk_size
      = [strip (replace_char nl [space] text) ++ [dot]]).
Proof.
  split.
  - rewrite split_text_pack. apply pack_chunk_ok; [|now left].
    eapply Forall_impl; [|apply sentences_ok]. apply sentence_ok_chunk_ok.
  - intros Hd Hb. rewrite split_text_pack. unfold sentences.
    rewrite split_none.
    + cbn [filter]. apply truthy_true in Hb. rewrite Hb.
      cbn [map pack truthy]. rewrite andb_false_r.
      now rewrite truthy_app_r.
    + apply replace_char_keeps; [exact Hd|]. intros [E|[]]. discriminate.
Qed.

Lemma split_text_chunk_shape_witness :
  Forall chunk_ok (split_text (lit "no period here") 5)
  /\ split_text (lit "no period here") 5 = [lit "no period here."].
Proof.
  split.
  - apply (proj1 (split_text_chunk_shape (lit "no period here") 5)).
  - apply (proj2 (split_text_chunk_shape (lit "no period here") 5)).
    + vm_compute. intros H.
      repeat (destruct H as [H|H]; [discriminate|]). exact H.
    + vm_compute. discriminate.
Defined.

(* ================================================================== *)
(** * The normalizer *)
(* ================================================================== *)

(** On the raw text the page-number pattern does match the line "12". *)
Lemma page_number_matches_raw_text :
  Re.sub (page_number Demo.ascii_digit) (fun _ => [nl]) Demo.page_text
  = lit "a" ++ [nl] ++ lit "b".
Proof. vm_compute. reflexivity. Qed.

(** C2.  The claim has the digits of a page-number line removed.
    [clean_text] first turns every line break into a space, so its
    page-number pattern, which starts and ends with a line break, finds
    nothing: the line "12" between "a" and "b" stays in the output. *)
Theorem clean_text_keeps_page_number (P : Platform) :
  clean_text P Demo.page_text = lit "a 12 b".
Proof. rewrite clean_text_steps. vm_compute. reflexivity. Qed.

(** C6.  The output of [clean_text] has no two adjacent whitespace
    characters. *)
Theorem clean_text_no_space_run (P : Platform) (text : str) :
  has_space_run (clean_text P text) = false.
Proof.
  rewrite clean_text_steps.
  apply strip_no_run, punctuation_no_run.
  apply replace_char_no_run; [reflexivity | reflexivity |].
  apply replace_char_no_run; [reflexivity | reflexivity |].
  apply collapse_spec.
Qed.

(* ================================================================== *)
(** * The extractor *)
(* ================================================================== *)

(** C7, as stated, fails on a missing file whose extension is not
    [.epub]: the extension is looked at first. *)
Lemma missing_txt_counterexample :
  os_path_exists Demo.platform (lit "missing.txt") = false
  /\ extract_text Demo.platform (lit "missing.txt")
     = Raise (ValueError (lit "Unsupported file format: .txt. Only EPUB files are supported.")).
Proof. vm_compute. split; reflexivity. Qed.

(** C7, amended.  A path whose extension is not [.epub] fails with
    [ValueError], whether the file exists or not; a path with the
    extension [.epub] that does not exist fails with
    [FileNotFoundError]. *)
Theorem extract_text_errors (P : Platform) (file_path : str) :
  let ext := str_lower P (snd (os_path_splitext P file_path)) in
  (ext <> lit ".epub" ->
   extract_text P file_path
   = Raise (ValueError (lit "Unsupported file format: " ++ ext
                        ++ lit ". Only EPUB files are supported.")))
  /\ (ext = lit ".epub" ->
      os_path_exists P file_path = false ->
      extract_text P file_path
      = Raise (FileNotFoundError (lit "File not found: " ++ file_path))).
Proof.
  intros ext. unfold extract_text, get_extractor. fold ext.
  destruct (list_eq_dec N.eq_dec ext (lit ".epub")) as [E|E]; split;
    try contradiction; try reflexivity.
  intros _ Hx. cbn [bind]. unfold extract. now rewrite Hx.
Qed.

Lemma extract_text_errors_witness :
  extract_text Demo.platform (lit "notes.txt")
  = Raise (ValueError (lit "Unsupported file format: .txt. Only EPUB files are supported."))
  /\ extract_text Demo.platform (lit "missing.epub")
     = Raise (FileNotFoundError (lit "File not found: missing.epub")).
Proof.
  split.
  - apply (proj1 (extract_text_errors Demo.platform (lit "notes.txt"))).
    vm_compute. discriminate.
  - apply (proj2 (extract_text_errors Demo.platform (lit "missing.epub")));
      vm_compute; reflexivity.
Defined.

(* ================================================================== *)
(** * The synthesis driver *)
(* ================================================================== *)

Section DriverClaims.

Variable sample : Type.
Variable zero : sample.

(** C3, amended.  When the run writes its output, the silence segment
    after each chunk has [int(0.5 * sample_rate)] samples, the product
    truncated toward zero, all of them zero, and the stream written is,
    chunk after chunk, the speech buffers and then the silence: its
    length is the number of speech samples plus the number of chunks
    times [int(0.5 * sample_rate)]. *)
Theorem stream_is_speech_and_truncated_silence
  (K : Kokoro sample) (text output_file voice : str)
  (chunk_size sample_rate : Z) (lang_code : str) (max_chunks : option Z)
  (tr : list (event sample)) :
  (Z.abs sample_rate <= 2 ^ 53)%Z ->
  convert_to_speech zero K text output_file voice chunk_size sample_rate
                    lang_code max_chunks = (tr, true) ->
  exists pipeline,
    KPipeline K lang_code = Ok pipeline
    /\ let chunks := limit_chunks max_chunks (split_text text chunk_size) in
       let speech := speech_segments pipeline voice 0 chunks in
       let silence := repeat zero (Z.to_nat (sample_rate ÷ 2)) in
       synthesized tr = chunks
       /\ (0 <= sample_rate ÷ 2)%Z
       /\ Z.of_nat (length silence) = (sample_rate ÷ 2)%Z
       /\ written tr = [(output_file, stream silence speech, sample_rate)]
       /\ Z.of_nat (length (stream silence speech))
          = (speech_samples speech
             + Z.of_nat (length chunks) * (sample_rate ÷ 2))%Z.
Proof.
  intros _ H.
  assert (Ha : kokoro_available K = true).
  { unfold convert_to_speech in H. destruct (kokoro_available K); auto.
    simpl in H. congruence. }
  destruct (KPipeline K lang_code) as [pipeline|e] eqn:Hk.
  2:{ unfold convert_to_speech in H. rewrite Ha, Hk in H. simpl in H. congruence. }
  exists pipeline. split; [reflexivity|].
  rewrite (convert_to_speech_unfold _ zero K pipeline text output_file voice
             chunk_size sample_rate lang_code max_chunks Ha Hk) in H.
  cbv zeta in H |- *.
  set (chunks := limit_chunks max_chunks (split_text text chunk_size)) in *.
  destruct (process_chunks zero pipeline voice sample_rate (length chunks) 0
                           chunks []) as [tr_loop [[|b bs]|]] eqn:E;
    try congruence.
  cbv zeta in H.
  destruct (sf_write K output_file (np_concatenate (b :: bs)) sample_rate);
    [|congruence].
  assert (Htr : tr = preamble text chunk_size max_chunks ++ tr_loop
                     ++ [SfWrite output_file (np_concatenate (b :: bs)) sample_rate;
                         Print (lit "Audio saved to: " ++ output_file)])
    by congruence.
  clear H. subst tr.
  apply process_chunks_some in E as [_ [Hp [Hall [Hs Hw]]]].
  simpl app in Hall.
  assert (Hne : chunks <> []).
  { intros Hc. rewrite Hc in Hall. discriminate. }
  specialize (Hp Hne). rewrite pause_samples_quot in Hp.
  destruct (preamble_quiet sample text chunk_size max_chunks)
    as [Ps Pw].
  assert (Hd : np_concatenate (b :: bs)
               = stream (repeat zero (Z.to_nat (sample_rate ÷ 2)))
                        (speech_segments pipeline voice 0 chunks)).
  { rewrite Hall. unfold np_concatenate. rewrite concat_appended.
    unfold silence_segment. now rewrite pause_samples_quot. }
  repeat split.
  - rewrite !synthesized_app, Ps, Hs. simpl. now rewrite app_nil_r.
  - exact Hp.
  - rewrite repeat_length. now apply Z2Nat.id.
  - rewrite !written_app, Pw, Hw. cbn [written app]. now rewrite Hd.
  - rewrite stream_length, speech_segments_length, repeat_length.
    now rewrite Z2Nat.id.
Qed.

(** C4.  When an engine call of the run raises, [convert_to_speech]
    returns [False]; it has printed the number of that chunk (counted
    from 1, as in its progress lines) with the message of the exception,
    that chunk is the last one handed to the engine and no file is
    written. *)
Theorem synthesis_failure_aborts
  (K : Kokoro sample) (pipeline : Pipeline sample)
  (text output_file voice : str) (chunk_size sample_rate : Z)
  (lang_code : str) (max_chunks : option Z)
  (k : nat) (chunk v : str) (e : exn) :
  let run :=
    convert_to_speech zero K text output_file voice chunk_size sample_rate
                      lang_code max_chunks in
  let chunks := limit_chunks max_chunks (split_text text chunk_size) in
  KPipeline K lang_code = Ok pipeline ->
  In (Synthesize k chunk v) (fst run) ->
  raised_of (pipeline k chunk v) = Some e ->
  snd run = false
  /\ In (chunk_error (k + 1) e) (fst run)
  /\ nth_error chunks k = Some chunk
  /\ synthesized (fst run) = firstn (S k) chunks
  /\ written (fst run) = [].
Proof.
  intros run chunks Hk Hin Hr.
  assert (Ha : kokoro_available K = true).
  { destruct (kokoro_available K) eqn:Ha; auto. exfalso.
    unfold run, convert_to_speech in Hin. rewrite Ha in Hin. cbn [negb fst] in Hin.
    apply synthesize_in_synthesized in Hin. exact Hin. }
  unfold run in *. clear run.
  rewrite (convert_to_speech_unfold _ zero K pipeline text output_file voice
             chunk_size sample_rate lang_code max_chunks Ha Hk) in *.
  cbv zeta in *. fold chunks in Hin |- *.
  destruct (preamble_quiet sample text chunk_size max_chunks) as [Ps Pw].
  set (pre := preamble text chunk_size max_chunks) in *. clearbody pre.
  destruct (process_chunks zero pipeline voice sample_rate (length chunks) 0
                           chunks []) as [tr_loop r] eqn:E.
  assert (Hloop : In (Synthesize k chunk v) tr_loop).
  { destruct r as [[|b bs]|];
      [| destruct (sf_write K output_file (np_concatenate (b :: bs)) sample_rate) |];
      cbn [fst] in Hin;
      apply in_app_or in Hin as [Hin|Hin];
      try (exfalso; now apply (synthesized_nil_not_in sample pre k chunk v Ps));
      try (apply in_app_or in Hin as [Hin|Hin]); auto; exfalso;
      repeat (destruct Hin as [Hin|Hin]; [discriminate|]); exact Hin. }
  destruct (process_chunks_raised _ zero pipeline voice sample_rate _ _ _ _ _ _
              _ _ _ _ E Hloop Hr) as [-> [He [_ [Hn Hs]]]].
  rewrite Nat.sub_0_r in Hn, Hs. cbn [fst snd].
  pose proof (process_chunks_writes_nothing _ zero pipeline voice sample_rate
                (length chunks) chunks 0 []) as Hw.
  rewrite E in Hw. cbn [fst] in Hw.
  repeat split; auto.
  - apply in_or_app. right. exact He.
  - now rewrite synthesized_app, Ps, Hs.
  - now rewrite written_app, Pw, Hw.
Qed.

(** C8.  The empty text has no chunk; and when a text has no chunk, so
    that no audio segment is collected, [convert_to_speech] reports that
    no audio was generated, returns [False] and writes no file. *)
Theorem no_chunks_no_audio
  (K : Kokoro sample) (pipeline : Pipeline sample)
  (text output_file voice : str) (chunk_size sample_rate : Z)
  (lang_code : str) (max_chunks : option Z) :
  kokoro_available K = true ->
  KPipeline K lang_code = Ok pipeline ->
  split_text text chunk_size = [] ->
  split_text [] chunk_size = []
  /\ exists tr,
       convert_to_speech zero K text output_file voice chunk_size sample_rate
                         lang_code max_chunks = (tr, false)
       /\ In (Print (lit "No audio was generated.")) tr
       /\ synthesized tr = []
       /\ written tr = [].
Proof.
  intros Ha Hk Hnone. split; [reflexivity|].
  rewrite (convert_to_speech_unfold _ zero K pipeline text output_file voice
             chunk_size sample_rate lang_code max_chunks Ha Hk).
  cbv zeta. rewrite Hnone.
  assert (L : limit_chunks max_chunks [] = []).
  { unfold limit_chunks. destruct max_chunks as [m|]; auto.
    destruct (m >? 0)%Z; auto. apply firstn_nil. }
  rewrite L. cbn [process_chunks]. eexists. split; [reflexivity|].
  destruct (preamble_quiet sample text chunk_size max_chunks)
    as [Ps Pw].
  repeat split.
  - apply in_or_app. right. now left.
  - now rewrite synthesized_app, Ps.
  - now rewrite written_app, Pw.
Qed.

(** C9.  A cap of 0 on the command line reaches [convert_to_speech] as
    [None] and every chunk is synthesized; a positive cap [n] has the
    first [n] chunks synthesized, in order, and no other: the run
    succeeds whatever the engine would do on the chunks left out. *)
Theorem max_chunks_cap
  (K : Kokoro sample) (pipeline : Pipeline sample)
  (text output_file voice : str) (chunk_size sample_rate : Z)
  (lang_code : str) (n : Z) :
  let chunks := split_text text chunk_size in
  let selected := if (n =? 0)%Z then chunks else firstn (Z.to_nat n) chunks in
  (0 <= n)%Z ->
  kokoro_available K = true ->
  KPipeline K lang_code = Ok pipeline ->
  (0 <= sample_rate)%Z ->
  selected <> [] ->
  engine_ok pipeline voice 0 selected ->
  (forall data, sf_write K output_file data sample_rate = Ok tt) ->
  unlimited_if_zero (Some 0%Z) = None
  /\ limit_chunks (unlimited_if_zero (Some n)) chunks = selected
  /\ exists tr,
       convert_to_speech zero K text output_file voice chunk_size sample_rate
                         lang_code (unlimited_if_zero (Some n)) = (tr, true)
       /\ synthesized tr = selected.
Proof.
  intros chunks selected Hn Ha Hk Hsr Hne Hok Hw.
  assert (L : limit_chunks (unlimited_if_zero (Some n)) chunks = selected).
  { unfold selected. destruct n as [|p|p]; try reflexivity. lia. }
  split; [reflexivity|]. split; [exact L|].
  rewrite (convert_to_speech_unfold _ zero K pipeline text output_file voice
             chunk_size sample_rate lang_code (unlimited_if_zero (Some n)) Ha Hk).
  cbv zeta. fold chunks. rewrite L.
  destruct (process_chunks_completes _ zero pipeline voice sample_rate
              (length selected) selected 0 [] Hok
              (pause_samples_nonneg _ Hsr)) as [tr [E [Hs Hwr]]].
  rewrite E, app_nil_l.
  destruct (appended zero pipeline voice sample_rate 0 selected) as [|b bs] eqn:A.
  { apply appended_nil_iff in A. contradiction. }
  cbv zeta. rewrite Hw. eexists. split; [reflexivity|].
  destruct (preamble_quiet sample text chunk_size
                           (unlimited_if_zero (Some n))) as [Ps Pw].
  rewrite !synthesized_app, Ps, Hs. simpl. now rewrite app_nil_r.
Qed.

End DriverClaims.

(** C3, as stated, fails at sample rate 3: the silence after the chunk
    has [int(1.5) = 1] sample where [round(1.5)] is 2, and the stream has
    3 + 1 samples, not 3 + 2. *)
Lemma silence_counterexample :
  exists tr,
    convert_to_speech 0%Z (Demo.kokoro Demo.speak) (lit "Hi.") (lit "out.wav")
                      (lit "af_heart") 2000 3 (lit "a") None = (tr, true)
    /\ synthesized tr = [lit "Hi."]
    /\ written tr = [(lit "out.wav", [1; 1; 1; 0]%Z, 3%Z)]
    /\ speech_samples (speech_segments Demo.speak (lit "af_heart") 0 [lit "Hi."])
       = 3%Z
    /\ round_half_even (pause_duration * inject_Z 3) = 2%Z
    /\ Z.of_nat (length [1; 1; 1; 0]%Z)
       <> (3 + 1 * round_half_even (pause_duration * inject_Z 3))%Z.
Proof.
  eexists. split; [vm_compute; reflexivity|].
  vm_compute. repeat split; discriminate.
Qed.

Lemma stream_is_speech_and_truncated_silence_witness :
  snd Demo.short_run = true
  /\ written (fst Demo.short_run)
     = [(lit "out.wav", [1; 1; 1; 0; 0; 1; 1; 1; 0; 0]%Z, 5%Z)].
Proof.
  split; [reflexivity|].
  destruct (stream_is_speech_and_truncated_silence Z 0%Z
              (Demo.kokoro Demo.speak) (lit "Hi. Ok.") (lit "out.wav")
              (lit "af_heart") 3 5 (lit "a") None (fst Demo.short_run))
    as [pipeline [Hk [_ [_ [_ [Hw _]]]]]].
  - vm_compute. discriminate.
  - vm_compute. reflexivity.
  - injection Hk as <-. rewrite Hw. vm_compute. reflexivity.
Defined.

Lemma synthesis_failure_aborts_witness :
  snd Demo.failing_run = false
  /\ In (chunk_error 3 (Exception (lit "synthesis failed"))) (fst Demo.failing_run)
  /\ nth_error (split_text Demo.five_sentences 6) 2 = Some (lit "Three.")
  /\ synthesized (fst Demo.failing_run) = [lit "One."; lit "Two."; lit "Three."]
  /\ written (fst Demo.failing_run) = [].
Proof.
  apply (synthesis_failure_aborts Z 0%Z (Demo.kokoro (Demo.raises_at 2))
           (Demo.raises_at 2) Demo.five_sentences (lit "out.wav")
           (lit "af_heart") 6 24000 (lit "a") None 2 (lit "Three.")
           (lit "af_heart") (Exception (lit "synthesis failed"))).
  - reflexivity.
  - vm_compute. do 11 right. left. reflexivity.
  - reflexivity.
Defined.

Lemma no_chunks_no_audio_witness :
  split_text [] 2000 = []
  /\ exists tr,
       convert_to_speech 0%Z (Demo.kokoro Demo.speak) [] (lit "out.wav")
                         (lit "af_heart") 2000 24000 (lit "a") None
       = (tr, false)
       /\ In (Print (lit "No audio was generated.")) tr
       /\ synthesized tr = []
       /\ written tr = [].
Proof.
  apply (no_chunks_no_audio Z 0%Z (Demo.kokoro Demo.speak) Demo.speak []
           (lit "out.wav") (lit "af_heart") 2000 24000 (lit "a") None);
    reflexivity.
Defined.

Lemma max_chunks_cap_witness :
  exists tr,
    convert_to_speech 0%Z (Demo.kokoro (Demo.raises_at 2)) Demo.five_sentences
                      (lit "out.wav") (lit "af_heart") 6 24000 (lit "a")
                      (unlimited_if_zero (Some 2%Z)) = (tr, true)
    /\ synthesized tr = [lit "One."; lit "Two."].
Proof.
  apply (max_chunks_cap Z 0%Z (Demo.kokoro (Demo.raises_at 2)) (Demo.raises_at 2)
           Demo.five_sentences (lit "out.wav") (lit "af_heart") 6 24000
           (lit "a") 2).
  - lia.
  - reflexivity.
  - reflexivity.
  - lia.
  - vm_compute. discriminate.
  - vm_compute. auto.
  - reflexivity.
Defined.

(** The scenario of the specification: a book without text has no chunk,
    and [main] exits with status 1 without writing a file. *)
Example main_empty_document :
  extract_text Demo.platform (lit "book.epub") = Ok []
  /\ snd (main 0%Z Demo.platform (Demo.kokoro Demo.speak) Demo.book_args) = 1%Z
  /\ In (Print (lit "No audio was generated."))
        (fst (main 0%Z Demo.platform (Demo.kokoro Demo.speak) Demo.book_args))
  /\ written (fst (main 0%Z Demo.platform (Demo.kokoro Demo.speak)
                        Demo.book_args)) = [].
Proof.
  vm_compute. repeat split; try reflexivity. do 7 right. left. reflexivity.
Qed.

(* ================================================================== *)
(** * More on the chunker *)
(* ================================================================== *)

Section ChunkerMore.

Lemma join_nil_iff (l : list str) :
  Forall (fun s => truthy s = true) l -> (join [space] l = [] <-> l = []).
Proof.
  intros H. split; [|intros ->; reflexivity].
  destruct H as [|s l Hs Hl]; auto. intros E. exfalso.
  destruct l as [|q r]; simpl in E.
  - subst. discriminate.
  - apply app_eq_nil in E as [-> _]. discriminate.
Qed.

Lemma join_snoc (g : list str) (s : str) :
  g <> [] -> join [space] (g ++ [s]) = join [space] g ++ [space] ++ s.
Proof.
  induction g as [|p g IH]; [congruence|]. intros _.
  destruct g as [|q r]; [reflexivity|].
  change ((p :: q :: r) ++ [s]) with (p :: (q :: r) ++ [s]).
  change ((q :: r) ++ [s]) with (q :: r ++ [s]) at 1.
  rewrite join_cons2. change (q :: r ++ [s]) with ((q :: r) ++ [s]).
  rewrite IH by congruence. rewrite join_cons2. now rewrite <- !app_assoc.
Qed.

(** The loop, started on a group already joined, gives the joins of
    groups that together are that group followed by the sentences. *)
Lemma pack_groups (chunk_size : Z) (sents : list str) :
  Forall (fun s => truthy s = true) sents ->
  forall g,
    Forall (fun s => truthy s = true) g ->
    exists groups,
      pack chunk_size (join [space] g) sents = map (join [space]) groups
      /\ concat groups = g ++ sents
      /\ Forall (fun g' => g' <> []) groups
      /\ (g <> [] -> exists tl gs, groups = (g ++ tl) :: gs)
      /\ closed_when_full chunk_size groups.
Proof.
  induction 1 as [|s sents Hs Hall IH]; intros g Hg.
  - destruct g as [|p g'].
    + exists []. simpl. repeat split; auto. congruence.
    + exists [p :: g']. cbn [pack].
      assert (T : truthy (join [space] (p :: g')) = true).
      { apply truthy_true. intros E. apply (join_nil_iff _ Hg) in E. discriminate. }
      rewrite T. simpl. rewrite !app_nil_r. repeat split; auto.
      * constructor; [congruence | constructor].
      * intros _. exists [], []. now rewrite app_nil_r.
  - cbn [pack].
    assert (Tg : truthy (join [space] g) = match g with [] => false | _ => true end).
    { destruct g as [|p g']; [reflexivity|]. apply truthy_true. intros E.
      apply (join_nil_iff _ Hg) in E. discriminate. }
    destruct ((Z.of_nat (length (join [space] g)) + Z.of_nat (length s) >? chunk_size)%Z
              && truthy (join [space] g)) eqn:E.
    + apply andb_true_iff in E as [E1 E2]. rewrite Tg in E2.
      destruct g as [|p g']; [discriminate|].
      destruct (IH [s]) as [groups [Hp [Hc [Hne [Hhd Hcl]]]]].
      { constructor; auto. }
      destruct (Hhd ltac:(congruence)) as [tl [gs ->]].
      exists ((p :: g') :: ([s] ++ tl) :: gs).
      split; [|split; [|split; [|split]]].
      * cbn [map]. f_equal. exact Hp.
      * change (concat ((p :: g') :: ([s] ++ tl) :: gs))
          with ((p :: g') ++ concat (([s] ++ tl) :: gs)).
        rewrite Hc. reflexivity.
      * constructor; [congruence | exact Hne].
      * intros _. exists [], (([s] ++ tl) :: gs). now rewrite app_nil_r.
      * split; [|exact Hcl]. apply Z.gtb_lt in E1. simpl head_of. lia.
    + assert (Hnew : (if truthy (join [space] g)
                      then join [space] g ++ [space] ++ s else s)
                     = join [space] (g ++ [s])).
      { rewrite Tg. destruct g as [|p g']; [reflexivity|].
        symmetry. apply join_snoc. congruence. }
      match goal with
      | |- context [pack chunk_size ?x sents] =>
          replace x with (join [space] (g ++ [s])) by (symmetry; exact Hnew)
      end.
      destruct (IH (g ++ [s])) as [groups [Hp [Hc [Hne [Hhd Hcl]]]]].
      { apply Forall_app. split; auto. }
      exists groups. split; [|split; [|split; [|split]]]; auto.
      * rewrite Hc. now rewrite <- app_assoc.
      * intros _. destruct Hhd as [tl [gs ->]]; [now destruct g|].
        exists ([s] ++ tl), gs. now rewrite <- app_assoc.
Qed.

Lemma sentences_truthy (text : str) :
  Forall (fun s => truthy s = true) (sentences text).
Proof. eapply Forall_impl; [|apply sentences_ok]. apply sentence_ok_truthy. Qed.

Lemma split_text_groups (text : str) (chunk_size : Z) :
  exists groups,
    split_text text chunk_size = map (join [space]) groups
    /\ concat groups = sentences text
    /\ Forall (fun g => g <> []) groups
    /\ closed_when_full chunk_size groups.
Proof.
  rewrite split_text_pack.
  destruct (pack_groups chunk_size (sentences text) (sentences_truthy text) []
              (Forall_nil _)) as [groups [Hp [Hc [Hne [_ Hcl]]]]].
  exists groups. auto.
Qed.

Lemma split_text_chunk_ok (text : str) (chunk_size : Z) :
  Forall chunk_ok (split_text text chunk_size).
Proof.
  rewrite split_text_pack. apply pack_chunk_ok; [|now left].
  eapply Forall_impl; [|apply sentences_ok]. apply sentence_ok_chunk_ok.
Qed.

Lemma pack_oversized (chunk_size : Z) (sents : list str) :
  Forall (fun s => truthy s = true) sents ->
  Forall (fun s => (chunk_size < Z.of_nat (length s))%Z) sents ->
  forall cur,
    pack chunk_size cur sents = (if truthy cur then [cur] else []) ++ sents.
Proof.
  induction 1 as [|s sents Hs Hall IH]; intros Hbig cur.
  - simpl. now rewrite app_nil_r.
  - inversion Hbig as [|? ? Hb Hbig']; subst. cbn [pack].
    assert (T : (Z.of_nat (length cur) + Z.of_nat (length s) >? chunk_size)%Z = true).
    { apply Z.gtb_lt. lia. }
    rewrite T. cbn [andb]. destruct (truthy cur).
    + rewrite (IH Hbig' s), Hs. reflexivity.
    + rewrite (IH Hbig' s), Hs. reflexivity.
Qed.

Lemma join_merge (cur s : str) (rest : list str) :
  join [space] ((cur ++ [space] ++ s) :: rest) = join [space] (cur :: s :: rest).
Proof.
  destruct rest as [|q r]; [reflexivity|].
  rewrite !join_cons2. now rewrite <- !app_assoc.
Qed.

Lemma join_length_cons (p : str) (l : list str) :
  length p <= length (join [space] (p :: l)).
Proof.
  destruct l as [|q r]; simpl; [lia|]. rewrite length_app. lia.
Qed.

Lemma pack_fits (chunk_size : Z) (sents : list str) :
  forall cur,
    truthy cur = true ->
    (Z.of_nat (length (join [space] (cur :: sents))) <= chunk_size + 1)%Z ->
    pack chunk_size cur sents = [join [space] (cur :: sents)].
Proof.
  induction sents as [|s sents IH]; intros cur Hc Hfit.
  - simpl. now rewrite Hc.
  - cbn [pack]. rewrite Hc, andb_true_r.
    rewrite join_cons2 in Hfit. rewrite !length_app in Hfit.
    pose proof (join_length_cons s sents) as Hl. cbn [length] in Hfit.
    assert (T : (Z.of_nat (length cur) + Z.of_nat (length s) >? chunk_size)%Z = false).
    { rewrite Z.gtb_ltb. apply Z.ltb_ge. lia. }
    rewrite T, <- join_merge. apply IH.
    + now apply truthy_app_r.
    + rewrite join_merge, join_cons2, !length_app. cbn [length]. lia.
Qed.

Lemma lstrip_nil_iff (s : str) : lstrip s = [] <-> blank s = true.
Proof.
  unfold blank. induction s as [|c s IH]; simpl; [tauto|].
  destruct (isspace c); simpl; [exact IH|]. split; discriminate.
Qed.

Lemma blank_rev (s : str) : blank (rev s) = blank s.
Proof.
  unfold blank. destruct (forallb isspace s) eqn:E.
  - rewrite forallb_forall in *. intros x Hx. apply E. now apply in_rev.
  - destruct (forallb isspace (rev s)) eqn:E'; auto.
    rewrite forallb_forall in E'. assert (forallb isspace s = true); [|congruence].
    apply forallb_forall. intros x Hx. apply E'. now apply in_rev in Hx.
Qed.

Lemma strip_nil_iff (s : str) : strip s = [] <-> blank s = true.
Proof.
  unfold strip, rstrip. split.
  - intros E. apply lstrip_nil_iff.
    assert (E' : lstrip (rev (lstrip s)) = []).
    { rewrite <- (rev_involutive (lstrip (rev (lstrip s)))), E. reflexivity. }
    apply lstrip_nil_iff in E'. rewrite blank_rev in E'.
    apply lstrip_nil_iff in E'. now rewrite lstrip_idem in E'.
  - intros B. apply lstrip_nil_iff in B. now rewrite B.
Qed.

Lemma split_blank_fragments (s : str) :
  Forall (fun f => blank f = true) (split dot s)
  <-> (forall c, In c s -> isspace c = true \/ c = dot).
Proof.
  induction s as [|c s IH]; simpl.
  - split; [intros _ c [] | intros _; constructor; auto].
  - destruct (N.eqb_spec c dot) as [->|Hc].
    + split.
      * intros H. inversion H; subst. intros d [<-|Hd]; [now right|].
        now apply IH.
      * intros H. constructor; [reflexivity|]. apply IH. intros d Hd.
        apply H. now right.
    + destruct (split dot s) as [|f fs] eqn:E; [now apply split_not_nil in E|].
      split.
      * intros H. inversion H as [|? ? Hf Hfs]; subst. unfold blank in Hf.
        simpl in Hf. apply andb_true_iff in Hf as [H1 H2].
        intros d [<-|Hd]; [now left|]. apply IH; auto.
      * intros H.
        assert (H' : Forall (fun f => blank f = true) (f :: fs)).
        { apply IH. intros d Hd. apply H. now right. }
        inversion H' as [|? ? Hf Hfs]; subst. constructor; auto.
        unfold blank. simpl. destruct (H c (or_introl eq_refl)) as [Hs|Hd];
          [|contradiction].
        rewrite Hs. exact Hf.
Qed.

Lemma head_space_lstrip_id (s : str) : head_space s = false -> lstrip s = s.
Proof. destruct s as [|c s]; simpl; auto. now intros ->. Qed.

Lemma sentence_ok_head (s : str) : sentence_ok s -> head_space s = false.
Proof.
  intros [b [-> [Hb [Hs _]]]].
  pose proof (strip_lstrip b) as L. rewrite Hs in L.
  destruct b as [|c b]; [congruence|]. simpl in *.
  destruct (isspace c) eqn:E; auto. exfalso.
  pose proof (lstrip_length b) as Hl. rewrite L in Hl. simpl in Hl. lia.
Qed.

End ChunkerMore.

(** X1.  The chunks, joined by single spaces, are the sentences joined
    by single spaces: no character of a sentence is lost, added or
    moved. *)
Theorem chunks_reconstruct_sentences (text : str) (chunk_size : Z) :
  join [space] (split_text text chunk_size) = join [space] (sentences text).
Proof.
  rewrite split_text_pack. rewrite join_pack by apply sentences_truthy.
  reflexivity.
Qed.

(** X2.  Every chunk is a sentence on its own or has at most
    [chunk_size + 1] characters. *)
Theorem chunk_length_bound (text : str) (chunk_size : Z) (c : str) :
  In c (split_text text chunk_size) ->
  In c (sentences text) \/ (Z.of_nat (length c) <= chunk_size + 1)%Z.
Proof.
  intros H. pose proof (split_text_bound text chunk_size) as B.
  rewrite Forall_forall in B. now apply B.
Qed.

Lemma chunk_length_bound_witness :
  In (lit "Hi. Ok.") (sentences (lit "Hi. Ok."))
  \/ (Z.of_nat (length (lit "Hi. Ok.")) <= 6 + 1)%Z.
Proof.
  apply (chunk_length_bound (lit "Hi. Ok.") 6 (lit "Hi. Ok.")).
  vm_compute. now left.
Defined.

(** X3.  The chunks are the space-joined groups of a cutting of the
    sentence list into non-empty runs of consecutive sentences: no
    sentence is split between two chunks; and a group ends only where
    the loop found the next sentence too long to add. *)
Theorem chunks_are_sentence_groups (text : str) (chunk_size : Z) :
  exists groups,
    split_text text chunk_size = map (join [space]) groups
    /\ concat groups = sentences text
    /\ Forall (fun g => g <> []) groups
    /\ closed_when_full chunk_size groups.
Proof. apply split_text_groups. Qed.

(** X4.  When every sentence is longer than the chunk size (so, for any
    chunk size below 1), each sentence is a chunk of its own. *)
Theorem oversized_sentences_one_per_chunk (text : str) (chunk_size : Z) :
  Forall (fun s => (chunk_size < Z.of_nat (length s))%Z) (sentences text) ->
  split_text text chunk_size = sentences text.
Proof.
  intros H. rewrite split_text_pack.
  now rewrite (pack_oversized chunk_size (sentences text) (sentences_truthy text) H).
Qed.

Lemma oversized_sentences_one_per_chunk_witness :
  split_text Demo.five_sentences 0 = sentences Demo.five_sentences.
Proof.
  apply (oversized_sentences_one_per_chunk Demo.five_sentences 0).
  vm_compute. repeat constructor.
Defined.

(** X5.  When the sentences joined by spaces have at most
    [chunk_size + 1] characters, they all go into one chunk. *)
Theorem fitting_text_is_one_chunk (text : str) (chunk_size : Z) :
  sentences text <> [] ->
  (Z.of_nat (length (join [space] (sentences text))) <= chunk_size + 1)%Z ->
  split_text text chunk_size = [join [space] (sentences text)].
Proof.
  intros Hne Hfit. rewrite split_text_pack.
  pose proof (sentences_truthy text) as T.
  destruct (sentences text) as [|s sents]; [congruence|].
  inversion T; subst. cbn [pack truthy]. rewrite andb_false_r.
  now apply pack_fits.
Qed.

Lemma fitting_text_is_one_chunk_witness :
  split_text Demo.five_sentences 27 = [Demo.five_sentences].
Proof.
  apply (fitting_text_is_one_chunk Demo.five_sentences 27).
  - vm_compute. discriminate.
  - vm_compute. discriminate.
Defined.

(** X6.  The chunker returns no chunk exactly for the texts made of
    whitespace and periods only. *)
Theorem no_chunk_iff_blank (text : str) (chunk_size : Z) :
  split_text text chunk_size = []
  <-> (forall c, In c text -> isspace c = true \/ c = dot).
Proof.
  rewrite split_text_pack.
  assert (P0 : pack chunk_size [] (sentences text) = [] <-> sentences text = []).
  { split; [|intros ->; reflexivity].
    destruct (split_text_groups text chunk_size) as [g [Hp [Hc _]]].
    rewrite split_text_pack in Hp. intros E. rewrite E in Hp.
    destruct g; [now rewrite <- Hc | discriminate]. }
  rewrite P0. unfold sentences.
  set (t := replace_char nl [space] text).
  assert (S0 : map (fun s => strip s ++ [dot])
                 (filter (fun s => truthy (strip s)) (split dot t)) = []
               <-> Forall (fun f => blank f = true) (split dot t)).
  { induction (split dot t) as [|f fs IH]; simpl.
    - split; auto.
    - destruct (truthy (strip f)) eqn:E.
      + split; [discriminate|]. intros H. inversion H; subst.
        apply strip_nil_iff in H2. rewrite H2 in E. discriminate.
      + apply truthy_false in E. apply strip_nil_iff in E.
        rewrite IH. split; [now constructor | now inversion 1]. }
  rewrite S0, split_blank_fragments. unfold t, replace_char.
  split.
  - intros H c Hc. destruct (N.eqb_spec c nl) as [->|Hn]; [now left|].
    apply H. apply in_flat_map. exists c. split; auto.
    destruct (N.eqb_spec c nl); [contradiction | now left].
  - intros H c Hc. apply in_flat_map in Hc as [d [Hd Hc]].
    destruct (d =? nl)%N.
    + destruct Hc as [<-|[]]. now left.
    + destruct Hc as [<-|[]]. now apply H.
Qed.

Lemma no_chunk_iff_blank_witness : split_text (lit " .. . ") 10 = [].
Proof.
  apply (proj2 (no_chunk_iff_blank (lit " .. . ") 10)).
  intros c Hc. vm_compute in Hc.
  repeat (destruct Hc as [Hc|Hc]; [subst c; auto|]). destruct Hc.
Defined.

(** X7.  No chunk starts or ends with whitespace. *)
Theorem chunks_are_trimmed (text : str) (chunk_size : Z) :
  Forall (fun c => strip c = c) (split_text text chunk_size).
Proof.
  destruct (split_text_groups text chunk_size) as [groups [Hp [Hc [Hne _]]]].
  pose proof (split_text_chunk_ok text chunk_size) as Hshape.
  rewrite Hp in *. clear Hp.
  assert (Hok : Forall (Forall sentence_ok) groups).
  { pose proof (sentences_ok text) as Hs. rewrite <- Hc in Hs. clear Hc.
    induction groups as [|g gs IH]; constructor.
    - simpl in Hs. apply Forall_app in Hs. tauto.
    - simpl in Hs. apply Forall_app in Hs as [_ Hs]. inversion Hne; subst.
      inversion Hshape; subst. apply IH; auto. }
  clear Hc. induction groups as [|g gs IH]; [constructor|].
  inversion Hne as [|? ? Hg Hne']; subst.
  inversion Hshape as [|? ? Hch Hshape']; subst.
  inversion Hok as [|? ? Hgok Hok']; subst.
  constructor; [|apply IH; auto].
  destruct Hch as [Hn [Hlast _]].
  assert (Hh : head_space (join [space] g) = false).
  { destruct g as [|s g']; [congruence|]. inversion Hgok; subst.
    pose proof (sentence_ok_head _ H1) as Hs.
    destruct g' as [|q r]; [exact Hs|]. rewrite join_cons2.
    destruct s; [destruct H1 as [b [Eb _]]; now destruct b|]. exact Hs. }
  unfold strip. rewrite (head_space_lstrip_id _ Hh). unfold rstrip.
  assert (Hr : head_space (rev (join [space] g)) = false).
  { destruct (exists_last Hn) as [l [a E]]. rewrite E in *.
    rewrite last_last in Hlast. subst a. rewrite rev_app_distr. reflexivity. }
  rewrite (head_space_lstrip_id _ Hr). apply rev_involutive.
Qed.

(* ================================================================== *)
(** * More on the normalizer *)
(* ================================================================== *)

Section CleanMore.

Lemma in_replace_char (old c : char) (new s : str) :
  In c (replace_char old new s) -> In c s \/ In c new.
Proof.
  unfold replace_char. rewrite in_flat_map. intros [d [Hd Hc]].
  destruct (d =? old)%N; [now right|]. destruct Hc as [<-|[]]. now left.
Qed.

Lemma in_punctuation (c : char) (s : str) :
  In c (punctuation s) -> In c s \/ c = space.
Proof.
  induction s as [s IH] using length_ind. destruct s as [|a s]; [intros []|].
  rewrite punctuation_cons. destruct s as [|b r].
  - intros H. now left.
  - destruct (Re.sentence_end a && Re.ascii_letter b).
    + intros [<-|[<-|[<-|H]]]; auto.
      * left. now left.
      * left. right. now left.
      * apply IH in H; [|simpl; lia]. destruct H; auto. left. right. now right.
    + intros [<-|H]; [left; now left|].
      apply IH in H; [|simpl; lia]. destruct H; auto. left. now right.
Qed.

Lemma plain_spaces_forallb (s : str) :
  plain_spaces s <-> only_plain_spaces s = true.
Proof.
  unfold plain_spaces, only_plain_spaces. rewrite forallb_forall. split.
  - intros H c Hc. destruct (isspace c) eqn:E; [|reflexivity]. simpl.
    apply N.eqb_eq. auto.
  - intros H c Hc E. specialize (H c Hc). rewrite E in H. simpl in H.
    now apply N.eqb_eq.
Qed.

(** The text after the first four steps of [clean_text]. *)
Lemma before_strip_plain (text : str) :
  plain_spaces (punctuation (expand_ligatures (collapse text))).
Proof.
  intros c Hc Hs. apply in_punctuation in Hc as [Hc|Hc]; auto.
  unfold expand_ligatures in Hc.
  apply in_replace_char in Hc as [Hc|Hc].
  - apply in_replace_char in Hc as [Hc|Hc].
    + now apply (proj2 (collapse_spec text)).
    + simpl in Hc. destruct Hc as [<-|[<-|[]]]; discriminate.
  - simpl in Hc. destruct Hc as [<-|[<-|[]]]; discriminate.
Qed.

Lemma clean_text_expand (P : Platform) (text : str) :
  clean_text P text = strip (punctuation (expand_ligatures (collapse text))).
Proof. apply clean_text_steps. Qed.

Lemma clean_text_plain (P : Platform) (text : str) :
  plain_spaces (clean_text P text).
Proof.
  rewrite clean_text_expand. intros c Hc. apply strip_incl in Hc.
  exact (before_strip_plain text c Hc).
Qed.

Lemma expand_no_ligature (s : str) :
  ~ In lig_fi (expand_ligatures s) /\ ~ In lig_fl (expand_ligatures s).
Proof.
  unfold expand_ligatures. split.
  - apply replace_char_keeps.
    + apply replace_char_no_old. simpl. intros [H|[H|[]]]; discriminate.
    + simpl. intros [H|[H|[]]]; discriminate.
  - apply replace_char_no_old. simpl. intros [H|[H|[]]]; discriminate.
Qed.

Lemma clean_text_no_ligature_in (P : Platform) (text : str) :
  ~ In lig_fi (clean_text P text) /\ ~ In lig_fl (clean_text P text).
Proof.
  rewrite clean_text_expand.
  destruct (expand_no_ligature (collapse text)) as [H1 H2].
  split; intros H; apply strip_incl in H; apply in_punctuation in H as [H|H];
    try discriminate; contradiction.
Qed.

Lemma expand_ligatures_id (s : str) :
  ~ In lig_fi s -> ~ In lig_fl s -> expand_ligatures s = s.
Proof.
  intros H1 H2. unfold expand_ligatures.
  rewrite (replace_char_id _ _ _ H1). now apply replace_char_id.
Qed.

Lemma ascii_letter_not_sentence_end (c : char) :
  Re.ascii_letter c = true -> Re.sentence_end c = false.
Proof.
  unfold Re.ascii_letter, Re.sentence_end. intros H.
  apply orb_true_iff in H as [H|H]; apply andb_true_iff in H as [H1 H2];
    apply N.leb_le in H1; apply N.leb_le in H2;
    repeat (apply orb_false_iff; split); apply N.eqb_neq; lia.
Qed.

Lemma punctuation_head_letter (s : str) :
  head_letter (punctuation s) = head_letter s.
Proof.
  destruct s as [|a s]; auto. rewrite punctuation_cons.
  destruct s as [|b r]; auto.
  destruct (Re.sentence_end a && Re.ascii_letter b); reflexivity.
Qed.

Lemma punctuation_not_tight (s : str) :
  has_tight_punctuation (punctuation s) = false.
Proof.
  induction s as [s IH] using length_ind. destruct s as [|a s]; auto.
  rewrite punctuation_cons. destruct s as [|b r].
  - simpl. now rewrite andb_false_r.
  - destruct (Re.sentence_end a && Re.ascii_letter b) eqn:E.
    + apply andb_true_iff in E as [Ea Eb].
      cbn [has_tight_punctuation head_letter].
      rewrite (ascii_letter_not_sentence_end _ Eb).
      replace (Re.ascii_letter space) with false by reflexivity.
      replace (Re.sentence_end space) with false by reflexivity.
      rewrite andb_false_r. cbn [andb orb]. apply IH. simpl. lia.
    + cbn [has_tight_punctuation]. rewrite punctuation_head_letter.
      cbn [head_letter]. rewrite E. cbn [orb]. apply IH. simpl. lia.
Qed.

Lemma has_tight_punctuation_app (a b : str) :
  has_tight_punctuation (a ++ b) = false ->
  has_tight_punctuation a = false /\ has_tight_punctuation b = false.
Proof.
  induction a as [|c a IH]; simpl; auto.
  intros H. apply orb_false_iff in H as [H1 H2].
  destruct (IH H2) as [Ha Hb]. split; auto.
  rewrite Ha, orb_false_r. destruct a as [|d a]; simpl in *.
  - now rewrite andb_false_r.
  - exact H1.
Qed.

Lemma strip_not_tight (s : str) :
  has_tight_punctuation s = false -> has_tight_punctuation (strip s) = false.
Proof.
  intros H. unfold strip.
  destruct (lstrip_suffix s) as [w [E _]]. rewrite E in H.
  apply has_tight_punctuation_app in H as [_ H].
  destruct (rstrip_prefix (lstrip s)) as [w' E']. rewrite E' in H.
  now apply has_tight_punctuation_app in H.
Qed.

Lemma punctuation_id (s : str) :
  has_tight_punctuation s = false -> punctuation s = s.
Proof.
  induction s as [|a s IH]; auto. intros H.
  cbn [has_tight_punctuation] in H. apply orb_false_iff in H as [H1 H2].
  rewrite punctuation_cons. destruct s as [|b r]; auto.
  cbn [head_letter] in H1. rewrite H1. f_equal. now apply IH.
Qed.

Lemma collapse_id (s : str) :
  plain_spaces s -> has_space_run s = false -> collapse s = s.
Proof.
  induction s as [|c s IH]; auto. intros Hp Hr.
  cbn [has_space_run] in Hr. apply orb_false_iff in Hr as [H1 H2].
  assert (Hp' : plain_spaces s) by (intros d Hd; apply Hp; now right).
  destruct (isspace c) eqn:E.
  - rewrite collapse_space by exact E. cbn [andb] in H1.
    rewrite (head_space_lstrip_id _ H1), (Hp c (or_introl eq_refl) E).
    f_equal. now apply IH.
  - rewrite collapse_other by exact E. f_equal. now apply IH.
Qed.

Lemma squeeze_app (a b : str) : squeeze (a ++ b) = squeeze a ++ squeeze b.
Proof. apply filter_app. Qed.

Lemma squeeze_blank (w : str) : blank w = true -> squeeze w = [].
Proof.
  unfold blank, squeeze. induction w as [|c w IH]; simpl; auto.
  intros H. apply andb_true_iff in H as [Hc Hw]. rewrite Hc. simpl. auto.
Qed.

Lemma squeeze_lstrip (s : str) : squeeze (lstrip s) = squeeze s.
Proof.
  destruct (lstrip_suffix s) as [w [E Hw]]. rewrite E at 2.
  rewrite squeeze_app, (squeeze_blank _ Hw). reflexivity.
Qed.

Lemma squeeze_rev (s : str) : squeeze (rev s) = rev (squeeze s).
Proof.
  unfold squeeze. induction s as [|c s IH]; simpl; auto.
  rewrite filter_app, IH. simpl. destruct (negb (isspace c)); simpl; auto.
  now rewrite app_nil_r.
Qed.

Lemma squeeze_strip (s : str) : squeeze (strip s) = squeeze s.
Proof.
  unfold strip, rstrip.
  now rewrite squeeze_rev, squeeze_lstrip, squeeze_rev, rev_involutive,
    squeeze_lstrip.
Qed.

Lemma squeeze_collapse (s : str) : squeeze (collapse s) = squeeze s.
Proof.
  induction s as [s IH] using length_ind. destruct s as [|c s]; auto.
  destruct (isspace c) eqn:E.
  - rewrite collapse_space by exact E. unfold squeeze at 1 2. cbn [filter].
    rewrite E. replace (isspace space) with true by reflexivity. cbn [negb].
    fold (squeeze (collapse (lstrip s))). fold (squeeze s).
    rewrite IH by (simpl; pose proof (lstrip_length s); lia).
    apply squeeze_lstrip.
  - rewrite collapse_other by exact E. unfold squeeze at 1 2. cbn [filter].
    rewrite E. cbn [negb]. f_equal. apply IH. simpl. lia.
Qed.

Lemma squeeze_punctuation (s : str) : squeeze (punctuation s) = squeeze s.
Proof.
  induction s as [s IH] using length_ind. destruct s as [|a s]; auto.
  rewrite punctuation_cons. destruct s as [|b r]; auto.
  destruct (Re.sentence_end a && Re.ascii_letter b) eqn:E.
  - apply andb_true_iff in E as [Ea Eb].
    apply sentence_end_not_space in Ea. apply ascii_letter_not_space in Eb.
    unfold squeeze. cbn [filter].
    replace (isspace space) with true by reflexivity. rewrite Ea, Eb.
    cbn [negb]. do 2 f_equal. apply IH. simpl. lia.
  - unfold squeeze. cbn [filter]. fold (squeeze (punctuation (b :: r))).
    rewrite IH by (simpl; lia). reflexivity.
Qed.

Lemma squeeze_replace_char (old : char) (new s : str) :
  isspace old = false ->
  forallb (fun c => negb (isspace c)) new = true ->
  squeeze (replace_char old new s) = replace_char old new (squeeze s).
Proof.
  intros Ho Hn.
  assert (Sn : squeeze new = new).
  { unfold squeeze. clear Ho. induction new as [|c new IH]; simpl in *; auto.
    apply andb_true_iff in Hn as [Hc Hn]. rewrite Hc. f_equal. auto. }
  induction s as [|c s IH]; auto.
  change (replace_char old new (c :: s))
    with ((if (c =? old)%N then new else [c]) ++ replace_char old new s).
  rewrite squeeze_app, IH. unfold squeeze at 3. cbn [filter].
  destruct (N.eqb_spec c old) as [->|Hc].
  - rewrite Sn, Ho. cbn [negb]. unfold replace_char at 2. cbn [flat_map].
    now rewrite N.eqb_refl.
  - unfold squeeze at 1. cbn [filter]. destruct (negb (isspace c)); auto.
    unfold replace_char at 2. cbn [flat_map].
    destruct (N.eqb_spec c old); [contradiction | reflexivity].
Qed.

Lemma clean_text_of_blank (P : Platform) (text : str) :
  blank text = true -> clean_text P text = [].
Proof.
  intros B. rewrite clean_text_expand. destruct text as [|c t]; [reflexivity|].
  unfold blank in B. simpl in B. apply andb_true_iff in B as [Hc Ht].
  rewrite collapse_space by exact Hc.
  apply (proj2 (lstrip_nil_iff t)) in Ht. rewrite Ht. reflexivity.
Qed.

End CleanMore.

(** X8.  Every whitespace character of a normalized text is the plain
    space: line breaks, tabs and the other Unicode spaces are gone. *)
Theorem clean_text_only_plain_spaces (P : Platform) (text : str) :
  only_plain_spaces (clean_text P text) = true.
Proof. apply plain_spaces_forallb, clean_text_plain. Qed.

(** X9.  A normalized text has neither of the two ligatures. *)
Theorem clean_text_no_ligature (P : Platform) (text : str) :
  existsb is_ligature (clean_text P text) = false.
Proof.
  destruct (clean_text_no_ligature_in P text) as [H1 H2].
  destruct (existsb is_ligature (clean_text P text)) eqn:E; auto.
  apply existsb_exists in E as [c [Hc E]]. unfold is_ligature in E.
  apply orb_true_iff in E as [E|E]; apply N.eqb_eq in E; subst; contradiction.
Qed.

(** X10.  In a normalized text no [.], [!] or [?] has an ASCII letter
    right after it. *)
Theorem clean_text_spaces_after_punctuation (P : Platform) (text : str) :
  has_tight_punctuation (clean_text P text) = false.
Proof.
  rewrite clean_text_expand. apply strip_not_tight, punctuation_not_tight.
Qed.

(** X11.  Normalizing a normalized text changes nothing. *)
Theorem clean_text_idempotent (P : Platform) (text : str) :
  clean_text P (clean_text P text) = clean_text P text.
Proof.
  rewrite (clean_text_expand P (clean_text P text)).
  rewrite collapse_id.
  - destruct (clean_text_no_ligature_in P text) as [H1 H2].
    rewrite (expand_ligatures_id _ H1 H2).
    rewrite punctuation_id.
    + rewrite clean_text_expand. apply strip_idem.
    + rewrite clean_text_expand.
      apply strip_not_tight, punctuation_not_tight.
  - apply clean_text_plain.
  - rewrite clean_text_expand. apply strip_no_run, punctuation_no_run.
    unfold expand_ligatures.
    apply replace_char_no_run; [reflexivity | reflexivity |].
    apply replace_char_no_run; [reflexivity | reflexivity |].
    apply collapse_spec.
Qed.

(** X12.  A text of whitespace only is normalized to the empty text. *)
Theorem clean_text_blank (P : Platform) (text : str) :
  blank text = true -> clean_text P text = [].
Proof. apply clean_text_of_blank. Qed.

Lemma clean_text_blank_witness :
  clean_text Demo.platform ([nl; space; 9%N; nl]) = [].
Proof. apply (clean_text_blank Demo.platform [nl; space; 9%N; nl]). reflexivity. Defined.

(** X13.  The normalized text does not depend on which characters count
    as digits: the page-number substitution, which is the only place
    where they matter, never finds a match. *)
Theorem clean_text_ignores_digits (P P' : Platform) (text : str) :
  clean_text P text = clean_text P' text.
Proof. now rewrite !clean_text_expand. Qed.

(** X14.  Normalization touches whitespace and ligatures only: without
    its whitespace, the normalized text is the input without its
    whitespace and with the ligatures written out. *)
Theorem clean_text_keeps_the_letters (P : Platform) (text : str) :
  squeeze (clean_text P text) = expand_ligatures (squeeze text).
Proof.
  rewrite clean_text_expand, squeeze_strip, squeeze_punctuation.
  unfold expand_ligatures.
  rewrite squeeze_replace_char by reflexivity.
  rewrite squeeze_replace_char by reflexivity.
  now rewrite squeeze_collapse.
Qed.

(* ================================================================== *)
(** * More on the extractor *)
(* ================================================================== *)

Section ExtractMore.

Variable P : Platform.

Lemma _extract_epub (file_path : str) :
  _extract P EpubExtractor file_path
  = (book <- read_epub P file_path ;;
     text <- mapM (item_text P)
                  (filter (fun item => is_document (get_type item)) book) ;;
     Ok (join [nl] text))%py.
Proof. reflexivity. Qed.

Lemma join_nl_blank (texts : list str) :
  Forall (fun t => blank t = true) texts -> blank (join [nl] texts) = true.
Proof.
  unfold blank. induction 1 as [|t l Ht Hl IH]; [reflexivity|].
  destruct l as [|q r]; [exact Ht|].
  rewrite join_cons2, !forallb_app, Ht, IH. reflexivity.
Qed.

Lemma mapM_blank (items : list Item) :
  Forall (fun item =>
            exists content,
              decode_utf8 P (get_content item) = Ok content
              /\ blank (soup_get_text P content) = true) items ->
  exists texts,
    mapM (item_text P) items = Ok texts
    /\ Forall (fun t => blank t = true) texts.
Proof.
  induction 1 as [|item items [content [Hd Hb]] Hall [texts [Hm Ht]]].
  - exists []. split; [reflexivity | constructor].
  - exists (soup_get_text P content :: texts). split.
    + cbn [mapM]. unfold item_text at 1. rewrite Hd. cbn [bind]. now rewrite Hm.
    + now constructor.
Qed.

End ExtractMore.

(** X15.  [extract_text] returns a text only for an existing path with
    the extension [.epub] that the e-book library could open, and the
    text is then the normalized join, by line breaks, of the texts of
    the document items. *)
Theorem extract_text_success (P : Platform) (file_path text : str) :
  extract_text P file_path = Ok text ->
  os_path_exists P file_path = true
  /\ str_lower P (snd (os_path_splitext P file_path)) = lit ".epub"
  /\ exists book texts,
       read_epub P file_path = Ok book
       /\ mapM (item_text P)
               (filter (fun item => is_document (get_type item)) book)
          = Ok texts
       /\ text = clean_text P (join [nl] texts).
Proof.
  unfold extract_text, get_extractor.
  destruct (list_eq_dec N.eq_dec
              (str_lower P (snd (os_path_splitext P file_path))) (lit ".epub"))
    as [E|E]; [|discriminate].
  cbn [bind]. unfold extract.
  destruct (os_path_exists P file_path); [|discriminate]. cbn [negb].
  rewrite _extract_epub.
  destruct (read_epub P file_path) as [book|e]; [|discriminate]. cbn [bind].
  destruct (mapM (item_text P) _) as [texts|e] eqn:M; [|discriminate].
  cbn [bind]. intros [= <-]. repeat split; auto. now exists book, texts.
Qed.

Lemma extract_text_success_witness :
  os_path_exists Demo.platform (lit "book.epub") = true
  /\ str_lower Demo.platform
       (snd (os_path_splitext Demo.platform (lit "book.epub"))) = lit ".epub"
  /\ exists book texts,
       read_epub Demo.platform (lit "book.epub") = Ok book
       /\ mapM (item_text Demo.platform)
               (filter (fun item => is_document (get_type item)) book)
          = Ok texts
       /\ [] = clean_text Demo.platform (join [nl] texts).
Proof.
  apply (extract_text_success Demo.platform (lit "book.epub") []).
  reflexivity.
Defined.

(** X16.  A book that opens and whose document items (if any) hold
    whitespace only is extracted as the empty text; items of other
    types are not even decoded. *)
Theorem extract_text_blank_book (P : Platform) (file_path : str)
  (book : list Item) :
  os_path_exists P file_path = true ->
  str_lower P (snd (os_path_splitext P file_path)) = lit ".epub" ->
  read_epub P file_path = Ok book ->
  Forall (fun item =>
            is_document (get_type item) = true ->
            exists content,
              decode_utf8 P (get_content item) = Ok content
              /\ blank (soup_get_text P content) = true) book ->
  extract_text P file_path = Ok [].
Proof.
  intros Hx He Hr Hb. unfold extract_text, get_extractor. rewrite He.
  destruct (list_eq_dec N.eq_dec (lit ".epub") (lit ".epub")); [|contradiction].
  cbn [bind]. unfold extract. rewrite Hx. cbn [negb].
  rewrite _extract_epub, Hr. cbn [bind].
  destruct (mapM_blank P (filter (fun item => is_document (get_type item)) book))
    as [texts [Hm Ht]].
  { clear Hr. induction Hb as [|item items Hi Hall IH]; [constructor|].
    cbn [filter]. destruct (is_document (get_type item)) eqn:D; auto. }
  rewrite Hm. cbn [bind]. f_equal.
  apply clean_text_of_blank, join_nl_blank, Ht.
Qed.

Lemma extract_text_blank_book_witness :
  extract_text Demo.platform (lit "book.epub") = Ok [].
Proof.
  apply (extract_text_blank_book Demo.platform (lit "book.epub")
           [ {| get_type := ITEM_OTHER; get_content := [] |};
             {| get_type := ITEM_DOCUMENT; get_content := [] |} ]);
    try reflexivity.
  constructor; [discriminate|]. constructor; [|constructor].
  intros _. exists []. split; reflexivity.
Defined.

(* ================================================================== *)
(** * More on the synthesis driver and on [main] *)
(* ================================================================== *)

Section DriverMore.

Variable sample : Type.
Variable zero : sample.

Lemma process_chunks_prefix (pipeline : Pipeline sample) (voice : str)
  (sample_rate : Z) (total : nat) (chunks : list str) :
  forall i all_audio,
    exists n,
      synthesized (fst (process_chunks zero pipeline voice sample_rate total i
                                       chunks all_audio))
      = firstn n chunks.
Proof.
  induction chunks as [|c rest IH]; intros i all_audio.
  - exists 0. reflexivity.
  - cbn [process_chunks].
    destruct (synthesize_chunk zero pipeline voice sample_rate i c all_audio)
      as [a1|e].
    + destruct (IH (S i) a1) as [n Hn].
      destruct (process_chunks zero pipeline voice sample_rate total (S i) rest a1)
        as [tr r].
      exists (S n). cbn [fst] in *. cbn [app synthesized firstn]. now rewrite Hn.
    + exists 1. reflexivity.
Qed.

(** The three ways a run of [convert_to_speech] can go. *)
Lemma convert_to_speech_cases (K : Kokoro sample)
  (text output_file voice : str) (chunk_size sample_rate : Z)
  (lang_code : str) (max_chunks : option Z) :
  let run :=
    convert_to_speech zero K text output_file voice chunk_size sample_rate
                      lang_code max_chunks in
  let chunks := limit_chunks max_chunks (split_text text chunk_size) in
  (kokoro_available K = false
   /\ snd run = false /\ synthesized (fst run) = [] /\ written (fst run) = [])
  \/ (kokoro_available K = true
      /\ exists e,
           KPipeline K lang_code = Raise e
           /\ snd run = false /\ synthesized (fst run) = []
           /\ written (fst run) = [])
  \/ (kokoro_available K = true
      /\ exists pipeline tr_loop r,
           KPipeline K lang_code = Ok pipeline
           /\ process_chunks zero pipeline voice sample_rate (length chunks) 0
                             chunks [] = (tr_loop, r)
           /\ synthesized (fst run) = synthesized tr_loop
           /\ match r with
              | None => snd run = false /\ written (fst run) = []
              | Some [] => snd run = false /\ written (fst run) = []
              | Some (b :: bs) =>
                  written (fst run)
                  = [(output_file, np_concatenate (b :: bs), sample_rate)]
                  /\ (snd run = true <->
                      sf_write K output_file (np_concatenate (b :: bs))
                               sample_rate = Ok tt)
              end).
Proof.
  intros run chunks. destruct (kokoro_available K) eqn:Ha.
  2:{ left. unfold run, convert_to_speech. rewrite Ha. auto. }
  right. destruct (KPipeline K lang_code) as [pipeline|e] eqn:Hk.
  2:{ left. split; auto. exists e. split; auto.
      unfold run, convert_to_speech. rewrite Ha, Hk. cbn [negb fst snd].
      destruct (limit_message_quiet sample max_chunks) as [Ls Lw].
      repeat split.
      - cbn [app synthesized]. rewrite synthesized_app, Ls. reflexivity.
      - cbn [app written]. rewrite written_app, Lw. reflexivity. }
  right. split; auto.
  pose proof (convert_to_speech_unfold _ zero K pipeline text output_file voice
                chunk_size sample_rate lang_code max_chunks Ha Hk) as U.
  cbv zeta in U. fold chunks in U. fold run in U.
  destruct (preamble_quiet sample text chunk_size max_chunks) as [Ps Pw].
  pose proof (process_chunks_writes_nothing _ zero pipeline voice sample_rate
                (length chunks) chunks 0 []) as Hw.
  destruct (process_chunks zero pipeline voice sample_rate (length chunks) 0
                           chunks []) as [tr_loop r] eqn:E.
  cbn [fst] in Hw. exists pipeline, tr_loop, r. split; auto. split; auto.
  destruct r as [[|b bs]|].
  - rewrite U. cbn [fst snd].
    rewrite !synthesized_app, !written_app, Ps, Pw, Hw. cbn [synthesized written app].
    now rewrite app_nil_r.
  - destruct (sf_write K output_file (np_concatenate (b :: bs)) sample_rate)
      as [[]|e] eqn:W; rewrite U; cbn [fst snd];
      rewrite !synthesized_app, !written_app, Ps, Pw, Hw;
      cbn [synthesized written app tts_error]; rewrite app_nil_r;
      repeat split; auto; discriminate.
  - rewrite U. cbn [fst snd].
    now rewrite !synthesized_app, !written_app, Ps, Pw, Hw.
Qed.




End DriverMore.

Section DriverExtras.

Variable sample : Type.
Variable zero : sample.

(** X17.  Without a usable engine (the availability flag is off, or
    building the pipeline raises) [convert_to_speech] returns [False]
    without calling the engine on any chunk and without writing. *)
Theorem no_engine_no_output (K : Kokoro sample)
  (text output_file voice : str) (chunk_size sample_rate : Z)
  (lang_code : str) (max_chunks : option Z) :
  let run :=
    convert_to_speech zero K text output_file voice chunk_size sample_rate
                      lang_code max_chunks in
  kokoro_available K = false \/ (exists e, KPipeline K lang_code = Raise e) ->
  snd run = false /\ synthesized (fst run) = [] /\ written (fst run) = [].
Proof.
  intros run H.
  destruct (convert_to_speech_cases _ zero K text output_file voice chunk_size
              sample_rate lang_code max_chunks)
    as [[Ha R]|[[Ha [e [Hk R]]]|[Ha [p [tr [r [Hk _]]]]]]].
  - exact R.
  - exact R.
  - destruct H as [H|[e H]]; congruence.
Qed.

(** X18.  A run calls [sf.write] at most once, on the output path and
    at the sample rate it was given; it returns [True] exactly when that
    call was made and did not raise. *)
Theorem at_most_one_write (K : Kokoro sample)
  (text output_file voice : str) (chunk_size sample_rate : Z)
  (lang_code : str) (max_chunks : option Z) :
  let run :=
    convert_to_speech zero K text output_file voice chunk_size sample_rate
                      lang_code max_chunks in
  (written (fst run) = [] /\ snd run = false)
  \/ exists data,
       written (fst run) = [(output_file, data, sample_rate)]
       /\ (snd run = true <->
           sf_write K output_file data sample_rate = Ok tt).
Proof.
  intros run. subst run.
  destruct (convert_to_speech_cases _ zero K text output_file voice chunk_size
              sample_rate lang_code max_chunks)
    as [[Ha R]|[[Ha [e [Hk R]]]|[Ha [p [tr [r [Hk [E [_ R]]]]]]]]].
  - left. tauto.
  - left. tauto.
  - destruct r as [[|b bs]|]; [left; tauto | | left; tauto].
    right. exists (np_concatenate (b :: bs)). exact R.
Qed.

(** X19.  In every run the engine is called on the chunks in their
    order, starting with the first and without skipping any: the chunks
    handed to it are a prefix of the chunks left by the cap. *)
Theorem engine_sees_a_prefix (K : Kokoro sample)
  (text output_file voice : str) (chunk_size sample_rate : Z)
  (lang_code : str) (max_chunks : option Z) :
  exists n,
    synthesized (fst (convert_to_speech zero K text output_file voice
                        chunk_size sample_rate lang_code max_chunks))
    = firstn n (limit_chunks max_chunks (split_text text chunk_size)).
Proof.
  destruct (convert_to_speech_cases _ zero K text output_file voice chunk_size
              sample_rate lang_code max_chunks)
    as [[Ha [_ [R _]]]|[[Ha [e [Hk [_ [R _]]]]]|[Ha [p [tr [r [Hk [E [R _]]]]]]]]].
  - exists 0. exact R.
  - exists 0. exact R.
  - destruct (process_chunks_prefix _ zero p voice sample_rate
                (length (limit_chunks max_chunks (split_text text chunk_size)))
                (limit_chunks max_chunks (split_text text chunk_size)) 0 [])
      as [n Hn].
    rewrite E in Hn. exists n. now rewrite R.
Qed.




End DriverExtras.

(** X20.  A cap that is negative, or at least the number of chunks,
    leaves every chunk in. *)
Theorem cap_out_of_range_omits_nothing (m : Z) (chunks : list str) :
  (m <= 0)%Z \/ (Z.of_nat (length chunks) <= m)%Z ->
  limit_chunks (unlimited_if_zero (Some m)) chunks = chunks.
Proof.
  intros H. destruct m as [|p|p]; try reflexivity.
  cbn [unlimited_if_zero limit_chunks].
  destruct H as [H|H]; [lia|]. apply firstn_all2. lia.
Qed.

Lemma cap_out_of_range_omits_nothing_witness :
  limit_chunks (unlimited_if_zero (Some (-3)%Z)) [lit "One."; lit "Two."]
  = [lit "One."; lit "Two."]
  /\ limit_chunks (unlimited_if_zero (Some 7%Z)) [lit "One."; lit "Two."]
     = [lit "One."; lit "Two."].
Proof.
  split.
  - apply (cap_out_of_range_omits_nothing (-3) [lit "One."; lit "Two."]).
    left. lia.
  - apply (cap_out_of_range_omits_nothing 7 [lit "One."; lit "Two."]).
    right. simpl. lia.
Defined.

Lemma no_engine_no_output_witness :
  snd (convert_to_speech 0%Z DemoMore.no_kokoro Demo.five_sentences
         (lit "out.wav") (lit "af_heart") 6 24000 (lit "a") None) = false
  /\ synthesized (fst (convert_to_speech 0%Z DemoMore.no_kokoro
                         Demo.five_sentences (lit "out.wav") (lit "af_heart")
                         6 24000 (lit "a") None)) = []
  /\ written (fst (convert_to_speech 0%Z DemoMore.no_kokoro Demo.five_sentences
                     (lit "out.wav") (lit "af_heart") 6 24000 (lit "a") None))
     = [].
Proof.
  apply (no_engine_no_output Z 0%Z DemoMore.no_kokoro Demo.five_sentences
           (lit "out.wav") (lit "af_heart") 6 24000 (lit "a") None).
  left. reflexivity.
Defined.




(* ================================================================== *)
(** * [main] *)
(* ================================================================== *)

Section MainExtras.

Variable sample : Type.
Variable zero : sample.


Lemma main_start_quiet (args : Args) (tail : list (event sample)) :
  synthesized tail = [] -> written tail = [] ->
  synthesized (([Mkdir (lit "audio_output")]
                ++ (if create_venv args then [CreateVenv] else [])) ++ tail) = []
  /\ written (([Mkdir (lit "audio_output")]
               ++ (if create_venv args then [CreateVenv] else [])) ++ tail) = [].
Proof.
  intros Hs Hw. rewrite synthesized_app, written_app, Hs, Hw.
  destruct (create_venv args); split; reflexivity.
Qed.

(** X24.  [main] calls the engine or writes a file only after all its
    checks have passed: the engine is available, the input exists, its
    extension is [.epub] and the text was extracted. *)
Theorem main_acts_only_after_checks (P : Platform) (K : Kokoro sample)
  (args : Args) :
  synthesized (fst (main zero P K args)) <> []
  \/ written (fst (main zero P K args)) <> [] ->
  kokoro_available K = true
  /\ os_path_exists P (input args) = true
  /\ str_lower P (snd (os_path_splitext P (input args))) = lit ".epub"
  /\ exists text, extract_text P (input args) = Ok text.
Proof.
  unfold main. cbv zeta.
  destruct (kokoro_available K) eqn:Ha; cbn [negb].
  2:{ cbn [fst]. intros [H|H]; exfalso; apply H;
        now apply main_start_quiet. }
  destruct (os_path_exists P (input args)) eqn:Hx; cbn [negb].
  2:{ cbn [fst]. intros [H|H]; exfalso; apply H;
        now apply main_start_quiet. }
  destruct (list_eq_dec N.eq_dec
              (str_lower P (snd (os_path_splitext P (input args))))
              (lit ".epub")) as [He|He]; cbn [negb].
  2:{ cbn [fst]. intros [H|H]; exfalso; apply H;
        now apply main_start_quiet. }
  destruct (extract_text P (input args)) as [text|e] eqn:Ht.
  2:{ cbn [fst]. intros [H|H]; exfalso; apply H;
        rewrite <- app_assoc; now apply main_start_quiet. }
  intros _. repeat split; auto. now exists text.
Qed.


(** X26.  With the engine available, [main] refuses a missing input with
    the message that the file was not found, whatever its extension, and
    an existing input of another extension with the message that the
    format is not supported; both exit with status 1. *)
Theorem main_rejects_input (P : Platform) (K : Kokoro sample) (args : Args) :
  kokoro_available K = true ->
  (os_path_exists P (input args) = false ->
   snd (main zero P K args) = 1%Z
   /\ In (Print (lit "Error: Input file '" ++ input args ++ lit "' not found."))
         (fst (main zero P K args)))
  /\ (os_path_exists P (input args) = true ->
      str_lower P (snd (os_path_splitext P (input args))) <> lit ".epub" ->
      snd (main zero P K args) = 1%Z
      /\ In (Print (lit "Error: Unsupported file format '"
                    ++ str_lower P (snd (os_path_splitext P (input args)))
                    ++ lit "'. Only EPUB files are supported."))
            (fst (main zero P K args))).
Proof.
  intros Ha. unfold main. cbv zeta. rewrite Ha. cbn [negb]. split.
  - intros Hx. rewrite Hx. cbn [negb fst snd]. split; [reflexivity|].
    apply in_or_app. right. now left.
  - intros Hx He. rewrite Hx. cbn [negb].
    destruct (list_eq_dec N.eq_dec
                (str_lower P (snd (os_path_splitext P (input args))))
                (lit ".epub")); [contradiction|].
    cbn [negb fst snd]. split; [reflexivity|].
    apply in_or_app. right. now left.
Qed.

End MainExtras.

Lemma main_acts_only_after_checks_witness :
  kokoro_available (Demo.kokoro Demo.speak) = true
  /\ os_path_exists DemoMore.platform (lit "book.epub") = true
  /\ str_lower DemoMore.platform
       (snd (os_path_splitext DemoMore.platform (lit "book.epub")))
     = lit ".epub"
  /\ exists text, extract_text DemoMore.platform (lit "book.epub") = Ok text.
Proof.
  apply (main_acts_only_after_checks Z 0%Z DemoMore.platform
           (Demo.kokoro Demo.speak) Demo.book_args).
  left. vm_compute. discriminate.
Defined.


Lemma main_rejects_input_witness :
  (snd (main 0%Z Demo.platform (Demo.kokoro Demo.speak) DemoMore.missing_args)
   = 1%Z
   /\ In (Print (lit "Error: Input file 'missing.txt' not found."))
         (fst (main 0%Z Demo.platform (Demo.kokoro Demo.speak)
                    DemoMore.missing_args)))
  /\ (snd (main 0%Z Demo.platform (Demo.kokoro Demo.speak) DemoMore.notes_args)
      = 1%Z
      /\ In (Print (lit "Error: Unsupported file format '.txt'. Only EPUB files are supported."))
            (fst (main 0%Z Demo.platform (Demo.kokoro Demo.speak)
                       DemoMore.notes_args))).
Proof.
  split.
  - apply (proj1 (main_rejects_input Z 0%Z Demo.platform
                    (Demo.kokoro Demo.speak) DemoMore.missing_args eq_refl)).
    reflexivity.
  - apply (proj2 (main_rejects_input Z 0%Z Demo.platform
                    (Demo.kokoro Demo.speak) DemoMore.notes_args eq_refl)).
    + reflexivity.
    + vm_compute. discriminate.
Defined.
